(** * ResponsiveAnalogRead

    A shallow embedding of [src/ResponsiveAnalogRead.cpp] and the
    properties of its adaptive smoothing filter and of its
    piecewise-linear range mapper.

    Numeric model.
    - [int] is a [Z], 32 bits wide as on the boards this code is
      written for.  The arithmetic of the interpolation of [multiMap],
      whose product can leave the range on tables that [setMap] takes,
      is written with its wrap-around modulo 2^32, as the compiled code
      computes it; the statements that give its exact value carry the
      condition that nothing overflows.  The doubling of a sample in
      the edge snap is taken inside the range.
    - [uint8_t] (the table size and the scan position of [multiMap]) is
      a [Z] kept below 256; the increment of the scan position wraps
      modulo 256 as the unsigned type does.
    - [float] is idealised as an exact rational in canonical form
      ([Qc]): there is no rounding, no infinity and no NaN.  The
      conversion [(int)x] truncates toward zero, as in C++.
    - An array handed over by pointer is a [list Z]; a read outside the
      list is a fault, not a value. *)

From Stdlib Require Import ZArith QArith Qcanon Qcabs List Bool Lia Lqa.
Import ListNotations.

Open Scope Z_scope.

(** ** Idealised floating point *)

Module Float.

Definition float := Qc.

(** Implicit conversion [int -> float]. *)
Definition of_int (z : Z) : float := Q2Qc (inject_Z z).

(** The cast [(int)x] and the implicit conversion [float -> int]:
    the fractional part is discarded. *)
Definition to_int (x : float) : Z := Z.quot (Qnum (this x)) (Zpos (Qden (this x))).

(** [x < y] and [x > y] as the conditions of an [if]. *)
Definition ltb (x y : float) : bool :=
  match Qccompare x y with Lt => true | _ => false end.
Definition gtb (x y : float) : bool := ltb y x.

(** The literals of the source. *)
Definition c0_0 : float := Q2Qc 0.
Definition c1_0 : float := Q2Qc 1.
Definition c2_0 : float := Q2Qc 2.
Definition c0_4 : float := Q2Qc (2 # 5).
Definition c0_5 : float := Q2Qc (1 # 2).

End Float.

Import Float.

Declare Scope float_scope.
Delimit Scope float_scope with F.
Bind Scope float_scope with float.
Infix "<?" := ltb : float_scope.
Infix ">?" := gtb : float_scope.
Infix "+" := Qcplus : float_scope.
Infix "-" := Qcminus : float_scope.
Infix "*" := Qcmult : float_scope.
Infix "/" := Qcdiv : float_scope.
Infix "<" := Qclt : float_scope.
Infix "<=" := Qcle : float_scope.
Notation "x <= y <= z" := (Qcle x y /\ Qcle y z) : float_scope.
Notation "x < y <= z" := (Qclt x y /\ Qcle y z) : float_scope.

(** ** The object *)

(** Modelled from the spec: the types and the defaults of the member
    variables, which the class declaration (ResponsiveAnalogRead.h, not
    among the sources) fixes.  The spec's data model gives [float] for
    [smoothValue], [errorEMA], [snapMultiplier] and [activityThreshold]
    and [int] for [analogResolution] and the emitted values.  The
    members that only the pin, the serial trace and the linear remap
    use are left out. *)
Record ResponsiveAnalogRead : Type := mkRAR {
  (* configuration *)
  sleepEnable : bool;
  edgeSnapEnable : bool;
  activityThreshold : float;
  analogResolution : Z;
  snapMultiplier : float;
  (* filter state *)
  smoothValue : float;
  errorEMA : float;
  sleeping : bool;
  rawValue : Z;
  responsiveValue : Z;
  prevResponsiveValue : Z;
  responsiveValueHasChanged : bool;
  (* range table *)
  _in : list Z;
  _out : list Z;
  _mapSize : Z;
  _map : bool
}.

Module Upd.

Definition set_snapMultiplier (r : ResponsiveAnalogRead) (v : float) :=
  mkRAR (sleepEnable r) (edgeSnapEnable r) (activityThreshold r)
    (analogResolution r) v (smoothValue r) (errorEMA r) (sleeping r)
    (rawValue r) (responsiveValue r) (prevResponsiveValue r)
    (responsiveValueHasChanged r) (_in r) (_out r) (_mapSize r) (_map r).

Definition set_smoothValue (r : ResponsiveAnalogRead) (v : float) :=
  mkRAR (sleepEnable r) (edgeSnapEnable r) (activityThreshold r)
    (analogResolution r) (snapMultiplier r) v (errorEMA r) (sleeping r)
    (rawValue r) (responsiveValue r) (prevResponsiveValue r)
    (responsiveValueHasChanged r) (_in r) (_out r) (_mapSize r) (_map r).

Definition set_errorEMA (r : ResponsiveAnalogRead) (v : float) :=
  mkRAR (sleepEnable r) (edgeSnapEnable r) (activityThreshold r)
    (analogResolution r) (snapMultiplier r) (smoothValue r) v (sleeping r)
    (rawValue r) (responsiveValue r) (prevResponsiveValue r)
    (responsiveValueHasChanged r) (_in r) (_out r) (_mapSize r) (_map r).

Definition set_sleeping (r : ResponsiveAnalogRead) (v : bool) :=
  mkRAR (sleepEnable r) (edgeSnapEnable r) (activityThreshold r)
    (analogResolution r) (snapMultiplier r) (smoothValue r) (errorEMA r) v
    (rawValue r) (responsiveValue r) (prevResponsiveValue r)
    (responsiveValueHasChanged r) (_in r) (_out r) (_mapSize r) (_map r).

Definition set_rawValue (r : ResponsiveAnalogRead) (v : Z) :=
  mkRAR (sleepEnable r) (edgeSnapEnable r) (activityThreshold r)
    (analogResolution r) (snapMultiplier r) (smoothValue r) (errorEMA r)
    (sleeping r) v (responsiveValue r) (prevResponsiveValue r)
    (responsiveValueHasChanged r) (_in r) (_out r) (_mapSize r) (_map r).

Definition set_responsiveValue (r : ResponsiveAnalogRead) (v : Z) :=
  mkRAR (sleepEnable r) (edgeSnapEnable r) (activityThreshold r)
    (analogResolution r) (snapMultiplier r) (smoothValue r) (errorEMA r)
    (sleeping r) (rawValue r) v (prevResponsiveValue r)
    (responsiveValueHasChanged r) (_in r) (_out r) (_mapSize r) (_map r).

Definition set_prevResponsiveValue (r : ResponsiveAnalogRead) (v : Z) :=
  mkRAR (sleepEnable r) (edgeSnapEnable r) (activityThreshold r)
    (analogResolution r) (snapMultiplier r) (smoothValue r) (errorEMA r)
    (sleeping r) (rawValue r) (responsiveValue r) v
    (responsiveValueHasChanged r) (_in r) (_out r) (_mapSize r) (_map r).

Definition set_responsiveValueHasChanged (r : ResponsiveAnalogRead) (v : bool) :=
  mkRAR (sleepEnable r) (edgeSnapEnable r) (activityThreshold r)
    (analogResolution r) (snapMultiplier r) (smoothValue r) (errorEMA r)
    (sleeping r) (rawValue r) (responsiveValue r) (prevResponsiveValue r)
    v (_in r) (_out r) (_mapSize r) (_map r).

Definition set_table (r : ResponsiveAnalogRead) (i o : list Z) (n : Z) (m : bool) :=
  mkRAR (sleepEnable r) (edgeSnapEnable r) (activityThreshold r)
    (analogResolution r) (snapMultiplier r) (smoothValue r) (errorEMA r)
    (sleeping r) (rawValue r) (responsiveValue r) (prevResponsiveValue r)
    (responsiveValueHasChanged r) i o n m.

End Upd.

Import Upd.

(** ** The responsive filter *)

(** [snapCurve]: the hyperbola [1/(x+1)], flipped, doubled and capped
    at one. *)
Definition snapCurve (x : float) : float :=
  let y := (c1_0 / (x + c1_0))%F in
  let y := ((c1_0 - y) * c2_0)%F in
  if (y >? c1_0)%F then c1_0 else y.

(** [setSnapMultiplier]: the multiplier is clamped to [0, 1]. *)
Definition setSnapMultiplier (r : ResponsiveAnalogRead) (newMultiplier : float)
  : ResponsiveAnalogRead :=
  let newMultiplier := if (newMultiplier >? c1_0)%F then c1_0 else newMultiplier in
  let newMultiplier := if (newMultiplier <? c0_0)%F then c0_0 else newMultiplier in
  set_snapMultiplier r newMultiplier.

(** The first block of [getResponsiveValue] (lines 67-73): a sample
    close to an edge is dragged toward it.  [newValue] is an [int], so
    each assignment converts the [float] right-hand side back. *)
Definition edgeSnap (r : ResponsiveAnalogRead) (newValue : Z) : Z :=
  if sleepEnable r && edgeSnapEnable r then
    if (of_int newValue <? activityThreshold r)%F then
      to_int (of_int (newValue * 2) - activityThreshold r)%F
    else if (of_int newValue >? of_int (analogResolution r) - activityThreshold r)%F then
      to_int (of_int (newValue * 2 - analogResolution r) + activityThreshold r)%F
    else newValue
  else newValue.

(** [errorEMA += ((newValue - smoothValue) - errorEMA) * 0.4] *)
Definition nextErrorEMA (r : ResponsiveAnalogRead) (newValue : Z) : float :=
  (errorEMA r + ((of_int newValue - smoothValue r) - errorEMA r) * c0_4)%F.

(** The closing clamp of [getResponsiveValue] (lines 118-122). *)
Definition clampSmooth (r : ResponsiveAnalogRead) (s : float) : float :=
  if (s <? c0_0)%F then c0_0
  else if (s >? of_int (analogResolution r - 1))%F then of_int (analogResolution r - 1)
  else s.

(** [snap *= 0.5 + 0.5;] (line 111) *)
Definition snapScale (snap : float) : float := (snap * (c0_5 + c0_5))%F.

(** [getResponsiveValue]: the returned [int] and the object after the
    call. *)
Definition getResponsiveValue (r : ResponsiveAnalogRead) (newValue : Z)
  : Z * ResponsiveAnalogRead :=
  let newValue := edgeSnap r newValue in
  (* unsigned int diff = abs(newValue - smoothValue);
     the absolute value is taken on the float, and the conversion of a
     non-negative float to unsigned int discards the fraction *)
  let diff := to_int (Qcabs (of_int newValue - smoothValue r)%F) in
  (* errorEMA += ((newValue - smoothValue) - errorEMA) * 0.4; *)
  let r := set_errorEMA r (nextErrorEMA r newValue) in
  (* if(sleepEnable) sleeping = abs(errorEMA) < activityThreshold; *)
  let r := if sleepEnable r
           then set_sleeping r (Qcabs (errorEMA r) <? activityThreshold r)%F
           else r in
  if sleepEnable r && sleeping r then (to_int (smoothValue r), r)
  else
    let snap := snapCurve (of_int diff * snapMultiplier r)%F in
    let snap := if sleepEnable r then snapScale snap else snap in
    let r := set_smoothValue r
               (smoothValue r + (of_int newValue - smoothValue r) * snap)%F in
    let r := set_smoothValue r (clampSmooth r (smoothValue r)) in
    (to_int (smoothValue r), r).

(** [update(int rawValueRead)]; the serial trace is left out. *)
Definition update (r : ResponsiveAnalogRead) (rawValueRead : Z)
  : ResponsiveAnalogRead :=
  let r := set_rawValue r rawValueRead in
  let r := set_prevResponsiveValue r (responsiveValue r) in
  let (v, r) := getResponsiveValue r (rawValue r) in
  let r := set_responsiveValue r v in
  set_responsiveValueHasChanged r
    (negb (responsiveValue r =? prevResponsiveValue r)).

(** Feeding a sequence of samples, one [update] each: the emitted
    outputs (the successive values of [responsiveValue]) and the object
    at the end. *)
Fixpoint run (r : ResponsiveAnalogRead) (samples : list Z)
  : list Z * ResponsiveAnalogRead :=
  match samples with
  | [] => ([], r)
  | x :: rest =>
      let r1 := update r x in
      let (outs, r2) := run r1 rest in
      (responsiveValue r1 :: outs, r2)
  end.

(** The objects met while a sequence is fed, the starting one left out. *)
Fixpoint trace (r : ResponsiveAnalogRead) (samples : list Z)
  : list ResponsiveAnalogRead :=
  match samples with
  | [] => []
  | x :: rest => update r x :: trace (update r x) rest
  end.

(** *** The filter without the statement of line 111

    The same three definitions with [snap *= 0.5 + 0.5;] taken out;
    they exist only to be compared with the ones above. *)
Definition getResponsiveValue_unscaled (r : ResponsiveAnalogRead) (newValue : Z)
  : Z * ResponsiveAnalogRead :=
  let newValue := edgeSnap r newValue in
  let diff := to_int (Qcabs (of_int newValue - smoothValue r)%F) in
  let r := set_errorEMA r (nextErrorEMA r newValue) in
  let r := if sleepEnable r
           then set_sleeping r (Qcabs (errorEMA r) <? activityThreshold r)%F
           else r in
  if sleepEnable r && sleeping r then (to_int (smoothValue r), r)
  else
    let snap := snapCurve (of_int diff * snapMultiplier r)%F in
    let r := set_smoothValue r
               (smoothValue r + (of_int newValue - smoothValue r) * snap)%F in
    let r := set_smoothValue r (clampSmooth r (smoothValue r)) in
    (to_int (smoothValue r), r).

Definition update_unscaled (r : ResponsiveAnalogRead) (rawValueRead : Z)
  : ResponsiveAnalogRead :=
  let r := set_rawValue r rawValueRead in
  let r := set_prevResponsiveValue r (responsiveValue r) in
  let (v, r) := getResponsiveValue_unscaled r (rawValue r) in
  let r := set_responsiveValue r v in
  set_responsiveValueHasChanged r
    (negb (responsiveValue r =? prevResponsiveValue r)).

Fixpoint run_unscaled (r : ResponsiveAnalogRead) (samples : list Z)
  : list Z * ResponsiveAnalogRead :=
  match samples with
  | [] => ([], r)
  | x :: rest =>
      let r1 := update_unscaled r x in
      let (outs, r2) := run_unscaled r1 rest in
      (responsiveValue r1 :: outs, r2)
  end.

(** ** The range mapper *)

(** What a call can come to: a value, a read outside an array or a
    division by zero ([Fault]), or a loop still running when the fuel
    is spent ([OutOfFuel]). *)
Inductive outcome (A : Type) : Type :=
| Done (a : A)
| Fault
| OutOfFuel.
Arguments Done {A} a.
Arguments Fault {A}.
Arguments OutOfFuel {A}.

Definition bind {A B : Type} (m : outcome A) (k : A -> outcome B) : outcome B :=
  match m with
  | Done a => k a
  | Fault => Fault
  | OutOfFuel => OutOfFuel
  end.

Notation "x <- m ;; k" := (bind m (fun x => k))
  (at level 61, m at next level, right associativity).

(** [a[i]] *)
Definition read (a : list Z) (i : Z) : outcome Z :=
  if i <? 0 then Fault
  else match nth_error a (Z.to_nat i) with
       | Some x => Done x
       | None => Fault
       end.

(** [while(val > _in[pos]) pos++;] with [pos] a [uint8_t]. *)
Fixpoint scan (fuel : nat) (r : ResponsiveAnalogRead) (val pos : Z) : outcome Z :=
  match fuel with
  | O => OutOfFuel
  | S fuel =>
      x <- read (_in r) pos ;;
      if val >? x then scan fuel r val ((pos + 1) mod 256) else Done pos
  end.

(** The range of [int] and the value an [int] operation leaves when
    its exact result is [z]. *)
Definition int_min : Z := -2147483648.
Definition int_max : Z := 2147483647.

Definition wrap_int (z : Z) : Z :=
  (z + 2147483648) mod 4294967296 - 2147483648.

Definition fits_int (z : Z) : Prop := int_min <= z <= int_max.

(** The expression of line 181,
    [(val - in_lo) * (out_hi - out_lo) / (in_hi - in_lo) + out_lo],
    operation by operation on [int]; [/] truncates toward zero. *)
Definition line181 (val in_lo in_hi out_lo out_hi : Z) : Z :=
  let num := wrap_int (wrap_int (val - in_lo) * wrap_int (out_hi - out_lo)) in
  let den := wrap_int (in_hi - in_lo) in
  wrap_int (wrap_int (num ÷ den) + out_lo).

(** The interpolation of line 181.  The entries of the arrays are
    [int]s, so the divisor is 0 exactly when the two input points are
    equal: the test for a division by zero is written on the entries. *)
Definition interpolate (r : ResponsiveAnalogRead) (val pos : Z) : outcome Z :=
  in_lo <- read (_in r) (pos - 1) ;;
  out_hi <- read (_out r) pos ;;
  out_lo <- read (_out r) (pos - 1) ;;
  in_hi <- read (_in r) pos ;;
  if in_hi - in_lo =? 0 then Fault
  else Done (line181 val in_lo in_hi out_lo out_hi).

(** [multiMap]; the serial trace is left out. *)
Definition multiMap (fuel : nat) (r : ResponsiveAnalogRead) (val : Z) : outcome Z :=
  in_first <- read (_in r) 0 ;;
  if val <=? in_first then read (_out r) 0
  else
    in_last <- read (_in r) (_mapSize r - 1) ;;
    if val >=? in_last then read (_out r) (_mapSize r - 1)
    else
      pos <- scan fuel r val 1 ;;
      in_pos <- read (_in r) pos ;;
      if val =? in_pos then read (_out r) pos
      else interpolate r val pos.

(** [setMap]: the two arrays and the size are stored and the table
    mode is switched on; nothing is examined and nothing is returned. *)
Definition setMap (r : ResponsiveAnalogRead) (in_ out : list Z) (size : Z)
  : ResponsiveAnalogRead :=
  set_table r in_ out size true.

(** The spec's failure for a malformed table. *)
Inductive ConfigurationError : Type :=
| TooFewPoints
| NotStrictlyIncreasing.

(** [setMap] seen as a construction that may be refused: the [void]
    function has no failing exit, so every call is an acceptance. *)
Definition setMap_result (r : ResponsiveAnalogRead) (in_ out : list Z) (size : Z)
  : ConfigurationError + ResponsiveAnalogRead :=
  inr (setMap r in_ out size).

(** *** Well-formed tables *)

Fixpoint strictly_increasing (l : list Z) : bool :=
  match l with
  | a :: ((b :: _) as rest) => (a <? b) && strictly_increasing rest
  | _ => true
  end.

(** The spec's table: two parallel sequences of [size >= 2] points,
    the input points strictly increasing; [size] fits its [uint8_t]. *)
Definition well_formed_table (in_ out : list Z) (size : Z) : bool :=
  (2 <=? size) && (size <? 256)
  && (Z.of_nat (length in_) =? size) && (Z.of_nat (length out) =? size)
  && strictly_increasing in_.

Definition well_formed (r : ResponsiveAnalogRead) : bool :=
  well_formed_table (_in r) (_out r) (_mapSize r).

(** ** Example objects *)

(** Modelled from the spec: the object after initialisation, with
    [smoothValue = 0], [errorEMA = 0], the defaults
    [activityThreshold = 4.0] and [analogResolution = 1024], edge snap
    on, not sleeping and no table (the initialisers are in the class
    declaration, which is not among the sources). *)
Definition initial (sleep : bool) (multiplier : float) : ResponsiveAnalogRead :=
  setSnapMultiplier
    (mkRAR sleep true (of_int 4) 1024 c0_0 c0_0 c0_0 false 0 0 0 false [] [] 0 false)
    multiplier.

(** The spec's example table. *)
Definition example_table : ResponsiveAnalogRead :=
  setMap (initial false c0_0) [0; 100; 200] [0; 128; 255] 3.

(** A table of two points that spreads a 12-bit reading over a million. *)
Definition wide_table : ResponsiveAnalogRead :=
  setMap (initial false c0_0) [0; 4095] [0; 1000000] 2.

(** ** The two exits of [getResponsiveValue] *)

(** The test of line 86 on the error average of line 81, both taken on
    the sample as the filter sees it. *)
Definition quiet (r : ResponsiveAnalogRead) (x : Z) : bool :=
  (Qcabs (nextErrorEMA r (edgeSnap r x)) <? activityThreshold r)%F.

(** The condition of line 92. *)
Definition asleep (r : ResponsiveAnalogRead) (x : Z) : bool :=
  sleepEnable r && quiet r x.

(** The argument handed to [snapCurve] on line 106. *)
Definition snapArg (r : ResponsiveAnalogRead) (x : Z) : float :=
  let diff := to_int (Qcabs (of_int (edgeSnap r x) - smoothValue r)%F) in
  (of_int diff * snapMultiplier r)%F.

(** [smoothValue] after lines 106-122, when the call does not sleep. *)
Definition nextSmooth (r : ResponsiveAnalogRead) (x : Z) : float :=
  let snap := snapCurve (snapArg r x) in
  let snap := if sleepEnable r then snapScale snap else snap in
  clampSmooth r (smoothValue r + (of_int (edgeSnap r x) - smoothValue r) * snap)%F.

(** The invariant of the filter. *)
Definition smooth_in_range (r : ResponsiveAnalogRead) : Prop :=
  (c0_0 <= smoothValue r <= of_int (analogResolution r - 1))%F.

Definition output_in_range (r : ResponsiveAnalogRead) (o : Z) : Prop :=
  0 <= o <= analogResolution r - 1.

(** A run of samples on which every call leaves [|errorEMA|] below
    [activityThreshold]. *)
Fixpoint stays_quiet (r : ResponsiveAnalogRead) (samples : list Z) : Prop :=
  match samples with
  | [] => True
  | x :: rest =>
      (Qcabs (errorEMA (update r x)) < activityThreshold r)%F
      /\ stays_quiet (update r x) rest
  end.

(** A configuration whose [activityThreshold] is 4.5. *)
Definition fractional_threshold : ResponsiveAnalogRead :=
  mkRAR true true (Q2Qc (9 # 2)) 1024 c1_0 c0_0 c0_0 false 0 0 0 false [] [] 0 false.

(** *** Reading a table in statements *)

(** The entry [a[i]] of an array, for an index inside it. *)
Definition elt (a : list Z) (i : Z) : Z := nth (Z.to_nat i) a 0.

(** [i] is the smallest index of the table with [_in[i] >= val]. *)
Definition first_at_least (r : ResponsiveAnalogRead) (val i : Z) : Prop :=
  0 <= i < _mapSize r
  /\ val <= elt (_in r) i
  /\ forall j : Z, 0 <= j < i -> elt (_in r) j < val.

(** The number of leading entries below [val]. *)
Fixpoint count_below (l : list Z) (val : Z) : nat :=
  match l with
  | [] => O
  | a :: rest => if val <=? a then O else S (count_below rest val)
  end.

(** The exact value of the expression of line 181 for the segment that
    ends at index [i]. *)
Definition segment_value (r : ResponsiveAnalogRead) (val i : Z) : Z :=
  elt (_out r) (i - 1)
  + (val - elt (_in r) (i - 1)) * (elt (_out r) i - elt (_out r) (i - 1))
    ÷ (elt (_in r) i - elt (_in r) (i - 1)).

(** What line 181 computes on [int] for that segment. *)
Definition segment_int (r : ResponsiveAnalogRead) (val i : Z) : Z :=
  line181 val (elt (_in r) (i - 1)) (elt (_in r) i)
    (elt (_out r) (i - 1)) (elt (_out r) i).

(** No intermediate result of line 181 leaves the range of [int]: the
    two differences of the product, the product, the divisor, the
    quotient and the sum. *)
Definition interpolation_fits (r : ResponsiveAnalogRead) (val i : Z) : Prop :=
  let a := val - elt (_in r) (i - 1) in
  let b := elt (_out r) i - elt (_out r) (i - 1) in
  let d := elt (_in r) i - elt (_in r) (i - 1) in
  fits_int a /\ fits_int b /\ fits_int (a * b) /\ fits_int d
  /\ fits_int (a * b ÷ d) /\ fits_int (a * b ÷ d + elt (_out r) (i - 1)).

(** A table on which line 181 cannot overflow, whatever value is
    mapped: on every segment the two differences fit and so does their
    product, and the output points are [int]s. *)
Definition no_overflow (r : ResponsiveAnalogRead) : Prop :=
  forall i : Z, 1 <= i < _mapSize r ->
    fits_int (elt (_in r) i - elt (_in r) (i - 1))
    /\ fits_int (elt (_out r) i - elt (_out r) (i - 1))
    /\ fits_int ((elt (_in r) i - elt (_in r) (i - 1))
                 * (elt (_out r) i - elt (_out r) (i - 1)))
    /\ fits_int (elt (_out r) (i - 1))
    /\ fits_int (elt (_out r) i).

(** [val] lies strictly between the first and the last input point. *)
Definition interior (r : ResponsiveAnalogRead) (val : Z) : Prop :=
  elt (_in r) 0 < val < elt (_in r) (_mapSize r - 1).

(** The smaller of two floats. *)
Definition fmin (a b : float) : float := if (b <? a)%F then b else a.

(** The hyperbola of [snapCurve] before the cap: [2 * (1 - 1/(x+1))]. *)
Definition hyperbola (x : float) : float :=
  (c2_0 * (c1_0 - c1_0 / (x + c1_0)))%F.


(** ** Further vocabulary for statements *)

(** A sample that the filter sees less than [margin] away from a
    level. *)
Definition near (r : ResponsiveAnalogRead) (level margin : float) (x : Z) : Prop :=
  (Qcabs (of_int (edgeSnap r x) - level) < margin)%F.

(** The samples, as the filter sees them, lie between two integers. *)
Definition seen_between (r : ResponsiveAnalogRead) (a b x : Z) : Prop :=
  a <= edgeSnap r x <= b.

(** A table whose arrays have the stored size, from 1 to 255 points;
    nothing is asked of the order of the input points. *)
Definition table_fits (r : ResponsiveAnalogRead) : bool :=
  (1 <=? _mapSize r) && (_mapSize r <? 256)
  && (Z.of_nat (length (_in r)) =? _mapSize r)
  && (Z.of_nat (length (_out r)) =? _mapSize r).

Fixpoint non_decreasing (l : list Z) : bool :=
  match l with
  | a :: ((b :: _) as rest) => (a <=? b) && non_decreasing rest
  | _ => true
  end.

(** The three exits of [multiMap] and what each returns; [segment]
    gives the value of an interpolation. *)
Definition multiMap_exit_with (segment : ResponsiveAnalogRead -> Z -> Z -> Z)
    (r : ResponsiveAnalogRead) (val v : Z) : Prop :=
  (val <= elt (_in r) 0 /\ v = elt (_out r) 0)
  \/ (elt (_in r) 0 < val /\ elt (_in r) (_mapSize r - 1) <= val
      /\ v = elt (_out r) (_mapSize r - 1))
  \/ (exists i : Z,
        1 <= i <= _mapSize r - 1
        /\ val < elt (_in r) (_mapSize r - 1)
        /\ first_at_least r val i
        /\ elt (_in r) (i - 1) < val
        /\ ((val = elt (_in r) i /\ v = elt (_out r) i)
            \/ (val < elt (_in r) i /\ v = segment r val i))).

(** The exits as the code computes them, on [int]. *)
Definition multiMap_exit : ResponsiveAnalogRead -> Z -> Z -> Prop :=
  multiMap_exit_with segment_int.

(** The exits with the exact value of the interpolation. *)
Definition multiMap_exit_exact : ResponsiveAnalogRead -> Z -> Z -> Prop :=
  multiMap_exit_with segment_value.

(** ** The pin-driven entry points *)

(** Modelled from the spec: the members that [begin], [update()] and
    [doMapping] use beside those of the filter record, with the types
    the spec's linear range map gives them (two input bounds and two
    target bounds, integers); [_useByte] is used as a condition.  The
    object is the filter record together with these members. *)
Record Board : Type := mkBoard {
  core : ResponsiveAnalogRead;
  pin : Z;
  _min : Z;
  _max : Z;
  _toMin : Z;
  _toMax : Z;
  _useByte : bool
}.

Definition set_sleepEnable (r : ResponsiveAnalogRead) (v : bool) :=
  mkRAR v (edgeSnapEnable r) (activityThreshold r)
    (analogResolution r) (snapMultiplier r) (smoothValue r) (errorEMA r)
    (sleeping r) (rawValue r) (responsiveValue r) (prevResponsiveValue r)
    (responsiveValueHasChanged r) (_in r) (_out r) (_mapSize r) (_map r).

Definition set_core (d : Board) (r : ResponsiveAnalogRead) : Board :=
  mkBoard r (pin d) (_min d) (_max d) (_toMin d) (_toMax d) (_useByte d).

(** [begin]; the calls that configure the pin and the converter are
    left out. *)
Definition begin (d : Board) (pin_ : Z) (sleepEnable_ : bool) (snapMultiplier_ : float)
  : Board :=
  let r := set_sleepEnable (core d) sleepEnable_ in
  let r := setSnapMultiplier r snapMultiplier_ in
  mkBoard r pin_ (_min d) 1023 (_toMin d) (_toMax d) true.

(** [doMapping].  [map] stands for Arduino's linear [map], which is not
    part of this repository. *)
Definition doMapping (map : Z -> Z -> Z -> Z -> Z -> Z) (fuel : nat)
    (d : Board) (val : Z) : outcome Z :=
  if _map (core d) then multiMap fuel (core d) val
  else Done (map val (_min d) (_max d) (_toMin d) (_toMax d)).

(** [update()], given what [analogRead(pin)] returns. *)
Definition updateFromPin (map : Z -> Z -> Z -> Z -> Z -> Z) (fuel : nat)
    (d : Board) (reading : Z) : outcome Board :=
  raw <- (if _useByte d then doMapping map fuel d reading else Done reading) ;;
  let r := set_rawValue (core d) raw in
  Done (set_core d (update r (rawValue r))).

(** One [update()] per reading: the outputs and the object at the end. *)
Fixpoint runFromPin (map : Z -> Z -> Z -> Z -> Z -> Z) (fuel : nat)
    (d : Board) (readings : list Z) : outcome (list Z * Board) :=
  match readings with
  | [] => Done ([], d)
  | x :: rest =>
      d1 <- updateFromPin map fuel d x ;;
      res <- runFromPin map fuel d1 rest ;;
      Done (responsiveValue (core d1) :: fst res, snd res)
  end.

(** What a board keeps while tabled, byte-wide readings are fed: byte
    mode and table mode on, a fitting table on which line 181 cannot
    overflow, with output points between [a] and [b], no edge snap, and
    [smoothValue] between [a] and [b] inside [0, analogResolution - 1]. *)
Definition board_confined (a b : Z) (d : Board) : Prop :=
  _useByte d = true
  /\ _map (core d) = true
  /\ table_fits (core d) = true
  /\ no_overflow (core d)
  /\ (forall j : Z, 0 <= j < _mapSize (core d) -> a <= elt (_out (core d)) j <= b)
  /\ sleepEnable (core d) && edgeSnapEnable (core d) = false
  /\ (c0_0 <= snapMultiplier (core d))%F
  /\ smooth_in_range (core d)
  /\ (of_int a <= smoothValue (core d) <= of_int b)%F.

(** ** Calibration *)

(** [a[i] = v] *)
Fixpoint store (a : list Z) (n : nat) (v : Z) : list Z :=
  match a, n with
  | [], _ => []
  | _ :: rest, O => v :: rest
  | x :: rest, S n => x :: store rest n v
  end.

Definition write (a : list Z) (i v : Z) : outcome (list Z) :=
  if i <? 0 then Fault
  else if Z.of_nat (length a) <=? i then Fault
  else Done (store a (Z.to_nat i) v).

(** The indices [0 .. n-1] of a [for] loop. *)
Definition indices (n : Z) : list Z := map Z.of_nat (seq 0 (Z.to_nat n)).

(** The reads of [for(int i=0; i<n; i++) ... a[i]]. *)
Fixpoint readEach (a : list Z) (idx : list Z) : outcome (list Z) :=
  match idx with
  | [] => Done []
  | i :: rest =>
      x <- read a i ;;
      xs <- readEach a rest ;;
      Done (x :: xs)
  end.

(** What [calibrate] ends with: the early return with its complaint, or
    the table it prints as the arrays [in], [out] and their [size]. *)
Inductive calibration : Type :=
| TooSlow
| Table (in_ out : list Z) (size : Z).

(** [while(analogRead(pin)==0) delay(100);] on the readings to come:
    the readings left after the first one that is not 0. *)
Fixpoint waitForMovement (readings : list Z) : outcome (list Z) :=
  match readings with
  | [] => OutOfFuel
  | x :: rest => if x =? 0 then waitForMovement rest else Done rest
  end.

(** The recording loop of lines 237-249, with [MAX = 255]: the buffer
    and the position it ends with, or nothing after the early return.
    It is out of fuel when the readings end before the loop does. *)
Fixpoint sweep (readings : list Z) (max : Z) (buf : list Z) (pos _sensorRaw : Z)
  : outcome (option (list Z * Z)) :=
  if _sensorRaw <? max then
    match readings with
    | [] => OutOfFuel
    | x :: rest =>
        buf <- write buf pos x ;;
        if pos >? 255 then Done None
        else sweep rest max buf (pos + 1) x
    end
  else Done (Some (buf, pos)).

(** [calibrate], given what the local array [buf] of 255 ints holds
    before it is written ([junk]) and what the successive calls of
    [analogRead(pin)] return.  The delays and the progress messages are
    left out; the three last [printf] groups give the table. *)
Definition calibrate (junk : list Z) (readings : list Z) : outcome calibration :=
  match readings with
  | min :: max :: rest =>
      rest <- waitForMovement rest ;;
      buf <- write junk 0 min ;;
      res <- sweep rest max buf 1 0 ;;
      match res with
      | None => Done TooSlow
      | Some (buf, pos) =>
          recorded <- readEach buf (indices pos) ;;
          if pos + 1 =? 0 then Fault
          else
            let add := 255 ÷ (pos + 1) in
            Done (Table (recorded ++ [max])
                        (map (fun i => i * add) (indices pos) ++ [255])
                        (pos + 1))
      end
  | _ => OutOfFuel
  end.

(** * Properties *)

(** ** Facts about the idealised floats *)

Lemma ltb_lt (x y : float) : (x <? y)%F = true <-> (x < y)%F.
Proof.
  unfold ltb. rewrite Qclt_alt. destruct (Qccompare x y); split; congruence.
Qed.

Lemma ltb_ge (x y : float) : (x <? y)%F = false <-> (y <= x)%F.
Proof.
  split; intro H.
  - apply Qcnot_lt_le. intro L. apply ltb_lt in L. congruence.
  - destruct (x <? y)%F eqn:E; trivial. apply ltb_lt in E.
    exfalso. exact (Qclt_not_le _ _ E H).
Qed.

Lemma this_of_int (z : Z) : this (of_int z) = inject_Z z.
Proof. apply Qred_identity. simpl. apply Z.gcd_1_r. Qed.

Lemma to_int_of_int (z : Z) : to_int (of_int z) = z.
Proof. unfold to_int. rewrite this_of_int. simpl. apply Z.quot_1_r. Qed.

Lemma to_int_range (x : float) (n : Z) :
  (c0_0 <= x <= of_int n)%F -> 0 <= to_int x <= n.
Proof.
  unfold Qcle, to_int. rewrite this_of_int.
  destruct (this x) as [a b]. unfold Qle. cbn. intros [Ha Hb].
  rewrite Z.quot_div_nonneg by lia. split.
  - apply Z.div_pos; lia.
  - apply Z.div_le_upper_bound; lia.
Qed.

Lemma of_int_le (a b : Z) : a <= b -> (of_int a <= of_int b)%F.
Proof.
  intro H. unfold Qcle. rewrite !this_of_int. now rewrite <- Zle_Qle.
Qed.

(** ** The two exits of [getResponsiveValue] *)

Lemma getResponsiveValue_asleep (r : ResponsiveAnalogRead) (x : Z) :
  asleep r x = true ->
  getResponsiveValue r x =
    (to_int (smoothValue r),
     set_sleeping (set_errorEMA r (nextErrorEMA r (edgeSnap r x))) true).
Proof.
  unfold asleep, quiet, getResponsiveValue. intro H.
  apply andb_true_iff in H. destruct H as [Hs Hq].
  cbn. rewrite Hs. cbn. rewrite Hq. cbn. rewrite Hs. reflexivity.
Qed.

Lemma getResponsiveValue_awake (r : ResponsiveAnalogRead) (x : Z) :
  asleep r x = false ->
  getResponsiveValue r x =
    (to_int (nextSmooth r x),
     set_smoothValue
       (if sleepEnable r
        then set_sleeping (set_errorEMA r (nextErrorEMA r (edgeSnap r x))) false
        else set_errorEMA r (nextErrorEMA r (edgeSnap r x)))
       (nextSmooth r x)).
Proof.
  unfold asleep, quiet, getResponsiveValue, nextSmooth, snapArg. intro H.
  destruct (sleepEnable r) eqn:Hs; cbn in H |- *; rewrite Hs; cbn.
  - rewrite H. cbn. rewrite Hs. reflexivity.
  - rewrite Hs. reflexivity.
Qed.

(** [update] leaves the configuration alone. *)
Lemma update_config (r : ResponsiveAnalogRead) (x : Z) :
  sleepEnable (update r x) = sleepEnable r
  /\ edgeSnapEnable (update r x) = edgeSnapEnable r
  /\ activityThreshold (update r x) = activityThreshold r
  /\ analogResolution (update r x) = analogResolution r
  /\ snapMultiplier (update r x) = snapMultiplier r.
Proof.
  unfold update.
  set (r0 := set_prevResponsiveValue (set_rawValue r x) (responsiveValue (set_rawValue r x))).
  change (rawValue r0) with x.
  destruct (asleep r0 x) eqn:E.
  - rewrite (getResponsiveValue_asleep _ _ E). cbn. repeat split.
  - rewrite (getResponsiveValue_awake _ _ E). subst r0. cbn.
    destruct (sleepEnable r) eqn:Hs; cbn; rewrite ?Hs; repeat split.
Qed.

(** What one [update] does to the filter state, by exit. *)
Lemma update_asleep (r : ResponsiveAnalogRead) (x : Z) :
  asleep r x = true ->
  smoothValue (update r x) = smoothValue r
  /\ responsiveValue (update r x) = to_int (smoothValue r)
  /\ errorEMA (update r x) = nextErrorEMA r (edgeSnap r x)
  /\ sleeping (update r x) = true.
Proof.
  intro E. unfold update.
  set (r0 := set_prevResponsiveValue (set_rawValue r x) (responsiveValue (set_rawValue r x))).
  change (rawValue r0) with x.
  assert (E0 : asleep r0 x = true) by exact E.
  rewrite (getResponsiveValue_asleep _ _ E0). cbn. repeat split.
Qed.

Lemma update_awake (r : ResponsiveAnalogRead) (x : Z) :
  asleep r x = false ->
  smoothValue (update r x) = nextSmooth r x
  /\ responsiveValue (update r x) = to_int (nextSmooth r x)
  /\ errorEMA (update r x) = nextErrorEMA r (edgeSnap r x).
Proof.
  intro E. unfold update.
  set (r0 := set_prevResponsiveValue (set_rawValue r x) (responsiveValue (set_rawValue r x))).
  change (rawValue r0) with x.
  assert (E0 : asleep r0 x = false) by exact E.
  rewrite (getResponsiveValue_awake _ _ E0). subst r0. cbn.
  destruct (sleepEnable r) eqn:Hs; cbn; rewrite ?Hs; repeat split.
Qed.

(** Whatever the exit, the emitted value is the truncated [smoothValue]. *)
Lemma update_output (r : ResponsiveAnalogRead) (x : Z) :
  responsiveValue (update r x) = to_int (smoothValue (update r x)).
Proof.
  destruct (asleep r x) eqn:E.
  - destruct (update_asleep _ _ E) as (-> & -> & _). reflexivity.
  - destruct (update_awake _ _ E) as (-> & -> & _). reflexivity.
Qed.

(** ** C1: the output bound *)

Lemma clampSmooth_range (r : ResponsiveAnalogRead) (s : float) :
  1 <= analogResolution r ->
  (c0_0 <= clampSmooth r s <= of_int (analogResolution r - 1))%F.
Proof.
  intro H. unfold clampSmooth.
  assert (H0 : (c0_0 <= of_int (analogResolution r - 1))%F)
    by (apply (of_int_le 0); lia).
  destruct (s <? c0_0)%F eqn:L.
  - split; [apply Qcle_refl | exact H0].
  - apply ltb_ge in L. unfold gtb.
    destruct (of_int (analogResolution r - 1) <? s)%F eqn:G.
    + split; [exact H0 | apply Qcle_refl].
    + apply ltb_ge in G. split; assumption.
Qed.

Lemma update_smooth_in_range (r : ResponsiveAnalogRead) (x : Z) :
  1 <= analogResolution r ->
  smooth_in_range r -> smooth_in_range (update r x).
Proof.
  intros Hres Hinv. unfold smooth_in_range.
  destruct (update_config r x) as (_ & _ & _ & -> & _).
  destruct (asleep r x) eqn:E.
  - destruct (update_asleep _ _ E) as (-> & _). exact Hinv.
  - destruct (update_awake _ _ E) as (-> & _). unfold nextSmooth.
    now apply clampSmooth_range.
Qed.

Lemma run_cons (r : ResponsiveAnalogRead) (x : Z) (rest : list Z) :
  run r (x :: rest) =
    (responsiveValue (update r x) :: fst (run (update r x) rest),
     snd (run (update r x) rest)).
Proof. cbn. destruct (run (update r x) rest). reflexivity. Qed.

Lemma run_in_range (samples : list Z) : forall r : ResponsiveAnalogRead,
  1 <= analogResolution r -> smooth_in_range r ->
  Forall (output_in_range r) (fst (run r samples))
  /\ Forall smooth_in_range (trace r samples).
Proof.
  induction samples as [| x rest IH]; intros r Hres Hinv.
  - split; constructor.
  - rewrite run_cons. cbn [fst trace].
    pose proof (update_smooth_in_range r x Hres Hinv) as Hinv'.
    destruct (update_config r x) as (_ & _ & _ & Hr & _).
    destruct (IH (update r x)) as [IHo IHt]; [lia | exact Hinv' |].
    split; constructor; trivial.
    + rewrite update_output. unfold output_in_range.
      rewrite <- Hr. apply to_int_range. exact Hinv'.
    + revert IHo. apply Forall_impl. unfold output_in_range.
      rewrite Hr. trivial.
Qed.

(** C1.  Output bound.  For a configuration with [analogResolution >= 1]:
    a filter started at [smoothValue = 0] has [smoothValue] in
    [0, analogResolution - 1]; every call keeps it there and emits an
    integer of [0, analogResolution - 1] whichever exit it takes (the
    sleeping one has no clamp of its own); and so every output of every
    sequence of samples fed from [smoothValue = 0] lies in that
    interval, as does [smoothValue] after each sample. *)
Theorem output_bound (r : ResponsiveAnalogRead) :
  1 <= analogResolution r ->
  (smoothValue r = c0_0 -> smooth_in_range r)
  /\ (forall x : Z,
        smooth_in_range r ->
        smooth_in_range (update r x)
        /\ output_in_range r (responsiveValue (update r x))
        /\ smooth_in_range (snd (getResponsiveValue r x))
        /\ output_in_range r (fst (getResponsiveValue r x)))
  /\ (forall samples : list Z,
        smoothValue r = c0_0 ->
        Forall (output_in_range r) (fst (run r samples))
        /\ Forall smooth_in_range (trace r samples)).
Proof.
  intro Hres.
  assert (Hinit : smoothValue r = c0_0 -> smooth_in_range r).
  { intro H0. unfold smooth_in_range. rewrite H0. split.
    - apply Qcle_refl.
    - apply (of_int_le 0). lia. }
  split; [exact Hinit | split].
  - intros x Hinv.
    pose proof (update_smooth_in_range r x Hres Hinv) as Hu.
    split; [exact Hu | split; [| split]].
    + rewrite update_output. unfold output_in_range.
      destruct (update_config r x) as (_ & _ & _ & Hr & _). rewrite <- Hr.
      apply to_int_range. exact Hu.
    + unfold smooth_in_range. destruct (asleep r x) eqn:E.
      * rewrite (getResponsiveValue_asleep _ _ E). exact Hinv.
      * rewrite (getResponsiveValue_awake _ _ E).
        destruct (sleepEnable r); cbn; unfold nextSmooth;
          now apply clampSmooth_range.
    + unfold output_in_range.
      destruct (asleep r x) eqn:E.
      * rewrite (getResponsiveValue_asleep _ _ E). cbn [fst].
        apply to_int_range. exact Hinv.
      * rewrite (getResponsiveValue_awake _ _ E). cbn [fst].
        apply to_int_range. unfold nextSmooth. now apply clampSmooth_range.
  - intros samples H0. apply run_in_range; [exact Hres | now apply Hinit].
Qed.

Lemma output_bound_witness :
  Forall (output_in_range (initial true c1_0))
    (fst (run (initial true c1_0) [0; 3; 700; 1023; 5000; -40])).
Proof.
  apply (output_bound (initial true c1_0)).
  - vm_compute. discriminate.
  - reflexivity.
Defined.

(** ** C2 and C10: the sleeping exit *)

Lemma update_errorEMA (r : ResponsiveAnalogRead) (x : Z) :
  errorEMA (update r x) = nextErrorEMA r (edgeSnap r x).
Proof.
  destruct (asleep r x) eqn:E.
  - now destruct (update_asleep _ _ E) as (_ & _ & -> & _).
  - now destruct (update_awake _ _ E) as (_ & _ & ->).
Qed.

Lemma getResponsiveValue_errorEMA (r : ResponsiveAnalogRead) (x : Z) :
  errorEMA (snd (getResponsiveValue r x)) = nextErrorEMA r (edgeSnap r x).
Proof.
  destruct (asleep r x) eqn:E.
  - rewrite (getResponsiveValue_asleep _ _ E). reflexivity.
  - rewrite (getResponsiveValue_awake _ _ E). cbn.
    destruct (sleepEnable r); reflexivity.
Qed.

(** The condition of the sleeping exit, read on the object after the
    call. *)
Lemma asleep_iff (r : ResponsiveAnalogRead) (x : Z) :
  asleep r x = true <->
  sleepEnable r = true
  /\ (Qcabs (errorEMA (update r x)) < activityThreshold r)%F.
Proof.
  unfold asleep, quiet. rewrite update_errorEMA, andb_true_iff, ltb_lt.
  reflexivity.
Qed.

(** The bookkeeping of [update] around the call. *)
Lemma update_bookkeeping (r : ResponsiveAnalogRead) (x : Z) :
  rawValue (update r x) = x
  /\ prevResponsiveValue (update r x) = responsiveValue r
  /\ responsiveValueHasChanged (update r x)
     = negb (responsiveValue (update r x) =? responsiveValue r)
  /\ _in (update r x) = _in r /\ _out (update r x) = _out r
  /\ _mapSize (update r x) = _mapSize r /\ _map (update r x) = _map r.
Proof.
  unfold update.
  set (r0 := set_prevResponsiveValue (set_rawValue r x) (responsiveValue (set_rawValue r x))).
  change (rawValue r0) with x.
  destruct (asleep r0 x) eqn:E.
  - rewrite (getResponsiveValue_asleep _ _ E). cbn. repeat split.
  - rewrite (getResponsiveValue_awake _ _ E). subst r0. cbn.
    destruct (sleepEnable r) eqn:Hs; cbn; rewrite ?Hs; repeat split.
Qed.

Lemma run_quiet (samples : list Z) : forall r : ResponsiveAnalogRead,
  sleepEnable r = true ->
  stays_quiet r samples ->
  Forall (eq (to_int (smoothValue r))) (fst (run r samples))
  /\ smoothValue (snd (run r samples)) = smoothValue r
  /\ (responsiveValue r = to_int (smoothValue r) ->
      Forall (fun r' => responsiveValueHasChanged r' = false) (trace r samples)).
Proof.
  induction samples as [| x rest IH]; intros r Hs Hq.
  - cbn. repeat split; constructor.
  - destruct Hq as [Hx Hrest]. rewrite run_cons. cbn [fst snd trace].
    assert (E : asleep r x = true) by (apply asleep_iff; split; assumption).
    destruct (update_asleep _ _ E) as (Hsm & Hout & _).
    destruct (update_config r x) as (Hs' & _).
    destruct (IH (update r x)) as (IHo & IHs & IHc);
      [congruence | exact Hrest |].
    rewrite Hsm in IHo, IHs. repeat split.
    + constructor; [symmetry; exact Hout | exact IHo].
    + exact IHs.
    + intro Hr. constructor.
      * destruct (update_bookkeeping r x) as (_ & _ & -> & _).
        rewrite Hout, Hr, Z.eqb_refl. reflexivity.
      * apply IHc. rewrite Hout, Hsm. reflexivity.
Qed.

(** C2.  Sleep freeze.  With [sleepEnable] set, a call after whose
    error-average update [|errorEMA| < activityThreshold] holds returns
    the truncated [smoothValue] and leaves [smoothValue] as it was;
    hence over a run of calls that all keep [|errorEMA|] below the
    threshold every emitted output is that same value, [smoothValue]
    is the same at the end, and, once an output has been emitted, the
    changed flag stays off. *)
Theorem sleep_freeze (r : ResponsiveAnalogRead) :
  sleepEnable r = true ->
  (forall x : Z,
     (Qcabs (errorEMA (snd (getResponsiveValue r x))) < activityThreshold r)%F ->
     fst (getResponsiveValue r x) = to_int (smoothValue r)
     /\ smoothValue (snd (getResponsiveValue r x)) = smoothValue r
     /\ responsiveValue (update r x) = to_int (smoothValue r)
     /\ smoothValue (update r x) = smoothValue r)
  /\ (forall samples : list Z,
        stays_quiet r samples ->
        Forall (eq (to_int (smoothValue r))) (fst (run r samples))
        /\ smoothValue (snd (run r samples)) = smoothValue r
        /\ (responsiveValue r = to_int (smoothValue r) ->
            Forall (fun r' => responsiveValueHasChanged r' = false)
              (trace r samples))).
Proof.
  intro Hs. split.
  - intros x Hq. rewrite getResponsiveValue_errorEMA in Hq.
    assert (E : asleep r x = true).
    { unfold asleep, quiet. rewrite Hs. cbn. now apply ltb_lt. }
    rewrite (getResponsiveValue_asleep _ _ E). cbn [fst snd].
    destruct (update_asleep _ _ E) as (Hsm & Hout & _).
    repeat split; assumption.
  - intros samples Hq. now apply run_quiet.
Qed.

Lemma sleep_freeze_witness :
  Forall (eq (to_int (smoothValue (initial true c1_0))))
    (fst (run (initial true c1_0) [0; 1; 0; 2; 1])).
Proof.
  apply (sleep_freeze (initial true c1_0)).
  - reflexivity.
  - cbn [stays_quiet]. repeat split; vm_compute; reflexivity.
Defined.

(** A large deviation ends the sleep: after the five quiet samples of
    the witness, the sample 600 wakes the filter and moves the output. *)
Example wake_up :
  let r := snd (run (initial true c1_0) [0; 1; 0; 2; 1]) in
  sleeping r = true
  /\ sleeping (update r 600) = false
  /\ responsiveValue r = 0
  /\ responsiveValue (update r 600) = 600.
Proof. vm_compute. repeat split. Qed.

Lemma nextErrorEMA_moves (r : ResponsiveAnalogRead) (n : Z) :
  (of_int n - smoothValue r)%F <> errorEMA r ->
  nextErrorEMA r n <> errorEMA r.
Proof.
  unfold nextErrorEMA. intros Hne Heq. apply Hne.
  set (d := (of_int n - smoothValue r)%F) in *.
  set (e := errorEMA r) in *.
  assert (H0 : ((d - e) * c0_4)%F = c0_0).
  { transitivity ((e + (d - e) * c0_4) - e)%F;
      [ring | rewrite Heq; unfold c0_0; ring]. }
  apply Qcmult_integral in H0. destruct H0 as [H0 | H0].
  - transitivity ((d - e) + e)%F; [ring | rewrite H0; unfold c0_0; ring].
  - discriminate H0.
Qed.

(** C10.  A sleeping call does not freeze the whole state.  When
    [sleepEnable] is set and [|errorEMA| < activityThreshold] holds
    after the error-average update, [update] stores the new sample in
    [rawValue], replaces [errorEMA] by
    [errorEMA + ((newValue - smoothValue) - errorEMA) * 0.4] ([newValue]
    being the sample after edge snap), which differs from the old
    [errorEMA] unless the raw error equals it already, recomputes
    [prevResponsiveValue], [responsiveValue] and the changed flag and
    sets [sleeping]; [smoothValue], and with it the emitted value, is
    the only part of the filter state left as it was. *)
Theorem sleeping_update_frame (r : ResponsiveAnalogRead) (x : Z) :
  sleepEnable r = true ->
  (Qcabs (errorEMA (update r x)) < activityThreshold r)%F ->
  rawValue (update r x) = x
  /\ errorEMA (update r x)
     = (errorEMA r
        + ((of_int (edgeSnap r x) - smoothValue r) - errorEMA r) * c0_4)%F
  /\ ((of_int (edgeSnap r x) - smoothValue r)%F <> errorEMA r ->
      errorEMA (update r x) <> errorEMA r)
  /\ prevResponsiveValue (update r x) = responsiveValue r
  /\ responsiveValue (update r x) = to_int (smoothValue r)
  /\ responsiveValueHasChanged (update r x)
     = negb (to_int (smoothValue r) =? responsiveValue r)
  /\ sleeping (update r x) = true
  /\ smoothValue (update r x) = smoothValue r.
Proof.
  intros Hs Hq.
  assert (E : asleep r x = true) by (apply asleep_iff; split; assumption).
  destruct (update_asleep _ _ E) as (Hsm & Hout & He & Hsl).
  destruct (update_bookkeeping r x) as (Hraw & Hprev & Hch & _).
  repeat split; try assumption.
  - intro Hne. rewrite He. now apply nextErrorEMA_moves.
  - rewrite Hch, Hout. reflexivity.
Qed.

Lemma sleeping_update_frame_witness :
  let r := initial true c1_0 in
  rawValue (update r 5) = 5
  /\ errorEMA (update r 5) <> errorEMA r
  /\ smoothValue (update r 5) = smoothValue r.
Proof.
  destruct (sleeping_update_frame (initial true c1_0) 5) as
    (H1 & _ & H3 & _ & _ & _ & _ & H8).
  - reflexivity.
  - vm_compute. reflexivity.
  - cbv zeta. split; [exact H1 | split; [| exact H8]].
    apply H3. intro H. apply (f_equal this) in H. vm_compute in H.
    discriminate H.
Defined.

(** ** C7: edge snap *)

Lemma this_plus (a b : float) : (this (a + b)%F == this a + this b)%Q.
Proof. apply Qred_correct. Qed.

Lemma this_opp (a : float) : (this (Qcopp a) == - this a)%Q.
Proof. apply Qred_correct. Qed.

Lemma this_minus (a b : float) : (this (a - b)%F == this a - this b)%Q.
Proof. unfold Qcminus. rewrite this_plus, this_opp. reflexivity. Qed.

Lemma this_mult (a b : float) : (this (a * b)%F == this a * this b)%Q.
Proof. apply Qred_correct. Qed.

Lemma this_inv (a : float) : (this (Qcinv a) == / this a)%Q.
Proof. apply Qred_correct. Qed.

Lemma this_div (a b : float) : (this (a / b)%F == this a / this b)%Q.
Proof. unfold Qcdiv. rewrite this_mult, this_inv. reflexivity. Qed.

Lemma of_int_minus (a b : Z) : (of_int a - of_int b)%F = of_int (a - b).
Proof.
  apply Qc_is_canon. rewrite this_minus, !this_of_int.
  unfold Z.sub. rewrite inject_Z_plus, inject_Z_opp. reflexivity.
Qed.

Lemma of_int_plus (a b : Z) : (of_int a + of_int b)%F = of_int (a + b).
Proof.
  apply Qc_is_canon. rewrite this_plus, !this_of_int.
  rewrite inject_Z_plus. reflexivity.
Qed.

(** C7, as the claim words it, fails: the rewritten sample is an [int],
    so with [activityThreshold = 4.5] the sample 1, which is below the
    threshold, becomes -2 and not 1*2 - 4.5. *)
Lemma edge_snap_not_exact :
  sleepEnable fractional_threshold = true
  /\ edgeSnapEnable fractional_threshold = true
  /\ (of_int 1 < activityThreshold fractional_threshold)%F
  /\ edgeSnap fractional_threshold 1 = -2
  /\ of_int (edgeSnap fractional_threshold 1)
     <> (of_int (1 * 2) - activityThreshold fractional_threshold)%F.
Proof.
  repeat split.
  intro H. apply (f_equal this) in H. vm_compute in H. discriminate H.
Qed.

(** C7, amended.  Edge snap acts exactly when [sleepEnable] and
    [edgeSnapEnable] are both set.  Then a sample below
    [activityThreshold] becomes [(int)(sample*2 - activityThreshold)],
    a sample that is not below it but above
    [analogResolution - activityThreshold] becomes
    [(int)(sample*2 - analogResolution + activityThreshold)], and any
    other sample is kept; with a flag off every sample is kept.  For an
    integer-valued threshold [t] the two conversions lose nothing: the
    results are [sample*2 - t] and [sample*2 - analogResolution + t].
    The rewritten sample is the one the error average is fed with;
    [rawValue] keeps the sample as it came. *)
Theorem edge_snap_cases (r : ResponsiveAnalogRead) (x : Z) :
  (sleepEnable r && edgeSnapEnable r = false -> edgeSnap r x = x)
  /\ (sleepEnable r = true -> edgeSnapEnable r = true ->
      ((of_int x < activityThreshold r)%F ->
         edgeSnap r x = to_int (of_int (x * 2) - activityThreshold r)%F)
      /\ ((activityThreshold r <= of_int x)%F ->
          (of_int (analogResolution r) - activityThreshold r < of_int x)%F ->
          edgeSnap r x
          = to_int (of_int (x * 2 - analogResolution r) + activityThreshold r)%F)
      /\ ((activityThreshold r <= of_int x)%F ->
          (of_int x <= of_int (analogResolution r) - activityThreshold r)%F ->
          edgeSnap r x = x))
  /\ (forall t : Z, activityThreshold r = of_int t ->
        to_int (of_int (x * 2) - activityThreshold r)%F = x * 2 - t
        /\ to_int (of_int (x * 2 - analogResolution r) + activityThreshold r)%F
           = x * 2 - analogResolution r + t)
  /\ errorEMA (update r x) = nextErrorEMA r (edgeSnap r x)
  /\ rawValue (update r x) = x.
Proof.
  split; [| split; [| split; [| split]]].
  - unfold edgeSnap. intros ->. reflexivity.
  - intros Hs He. unfold edgeSnap. rewrite Hs, He. cbn [andb].
    split; [| split].
    + intro L. apply ltb_lt in L. rewrite L. reflexivity.
    + intros L G. apply ltb_ge in L. rewrite L.
      unfold gtb. apply ltb_lt in G. rewrite G. reflexivity.
    + intros L G. apply ltb_ge in L. rewrite L.
      unfold gtb. apply ltb_ge in G. rewrite G. reflexivity.
  - intros t ->. rewrite of_int_minus, of_int_plus, !to_int_of_int.
    split; reflexivity.
  - apply update_errorEMA.
  - apply update_bookkeeping.
Qed.

Lemma edge_snap_cases_witness :
  edgeSnap (initial true c1_0) 1 = -2
  /\ edgeSnap (initial true c1_0) 1022 = 1024
  /\ edgeSnap (initial true c1_0) 500 = 500
  /\ edgeSnap (initial false c1_0) 1 = 1.
Proof.
  destruct (edge_snap_cases (initial true c1_0) 1) as (_ & H1 & _).
  destruct (edge_snap_cases (initial true c1_0) 1022) as (_ & H2 & _).
  destruct (edge_snap_cases (initial true c1_0) 500) as (_ & H3 & _).
  destruct (edge_snap_cases (initial false c1_0) 1) as (H4 & _).
  destruct H1 as (H1 & _); [reflexivity | reflexivity |].
  destruct H2 as (_ & H2 & _); [reflexivity | reflexivity |].
  destruct H3 as (_ & _ & H3); [reflexivity | reflexivity |].
  split; [| split; [| split]].
  - rewrite H1; [reflexivity | vm_compute; reflexivity].
  - rewrite H2; [reflexivity | vm_compute; discriminate | vm_compute; reflexivity].
  - apply H3; vm_compute; discriminate.
  - apply H4. reflexivity.
Defined.

(** ** C8: the statement of line 111 *)

Lemma snapScale_id (snap : float) : snapScale snap = snap.
Proof.
  unfold snapScale.
  replace (c0_5 + c0_5)%F with (Q2Qc 1) by (apply Qc_is_canon; reflexivity).
  apply Qcmult_1_r.
Qed.

Lemma getResponsiveValue_unscaled_eq (r : ResponsiveAnalogRead) (x : Z) :
  getResponsiveValue r x = getResponsiveValue_unscaled r x.
Proof.
  unfold getResponsiveValue, getResponsiveValue_unscaled.
  rewrite snapScale_id.
  repeat match goal with |- context [if ?b then _ else _] => destruct b end;
    reflexivity.
Qed.

Lemma update_unscaled_eq (r : ResponsiveAnalogRead) (x : Z) :
  update r x = update_unscaled r x.
Proof.
  unfold update, update_unscaled.
  rewrite getResponsiveValue_unscaled_eq. reflexivity.
Qed.

(** C8.  [snap *= 0.5 + 0.5] multiplies [snap] by exactly one and
    changes nothing: the filter and the filter without that statement
    return the same value and leave the same object on every call, and
    emit the same outputs and end in the same object on every sequence
    of samples, from every object. *)
Theorem snap_scale_is_noop :
  (c0_5 + c0_5)%F = c1_0
  /\ (forall snap : float, snapScale snap = snap)
  /\ (forall (r : ResponsiveAnalogRead) (x : Z),
        getResponsiveValue r x = getResponsiveValue_unscaled r x
        /\ update r x = update_unscaled r x)
  /\ (forall (samples : list Z) (r : ResponsiveAnalogRead),
        run r samples = run_unscaled r samples).
Proof.
  split; [apply Qc_is_canon; reflexivity | split; [exact snapScale_id | split]].
  - intros r x. split.
    + apply getResponsiveValue_unscaled_eq.
    + apply update_unscaled_eq.
  - induction samples as [| x rest IH]; intro r.
    + reflexivity.
    + cbn [run run_unscaled]. rewrite <- update_unscaled_eq, IH. reflexivity.
Qed.

(** ** C3: [setMap] *)

(** C3, as the claim words it, fails: a table of one point is taken. *)
Lemma setMap_accepts_one_point :
  well_formed_table [5] [7] 1 = false
  /\ (forall e : ConfigurationError,
        setMap_result (initial false c0_0) [5] [7] 1 <> inl e)
  /\ well_formed_table [0; 200; 100] [0; 128; 255] 3 = false
  /\ (forall e : ConfigurationError,
        setMap_result (initial false c0_0) [0; 200; 100] [0; 128; 255] 3 <> inl e).
Proof. repeat split; intro e; discriminate. Qed.

(** C3, amended.  [setMap] examines nothing and refuses nothing: for
    every pair of arrays and every size it stores the three, switches
    the table mode on and leaves the rest of the object alone.  So a
    well-formed table is accepted, and so is every other one. *)
Theorem setMap_total (r : ResponsiveAnalogRead) (in_ out : list Z) (size : Z) :
  setMap_result r in_ out size = inr (setMap r in_ out size)
  /\ _in (setMap r in_ out size) = in_
  /\ _out (setMap r in_ out size) = out
  /\ _mapSize (setMap r in_ out size) = size
  /\ _map (setMap r in_ out size) = true
  /\ well_formed (setMap r in_ out size) = well_formed_table in_ out size
  /\ smoothValue (setMap r in_ out size) = smoothValue r
  /\ errorEMA (setMap r in_ out size) = errorEMA r
  /\ responsiveValue (setMap r in_ out size) = responsiveValue r
  /\ sleeping (setMap r in_ out size) = sleeping r
  /\ rawValue (setMap r in_ out size) = rawValue r
  /\ prevResponsiveValue (setMap r in_ out size) = prevResponsiveValue r
  /\ responsiveValueHasChanged (setMap r in_ out size) = responsiveValueHasChanged r
  /\ sleepEnable (setMap r in_ out size) = sleepEnable r
  /\ edgeSnapEnable (setMap r in_ out size) = edgeSnapEnable r
  /\ activityThreshold (setMap r in_ out size) = activityThreshold r
  /\ analogResolution (setMap r in_ out size) = analogResolution r
  /\ snapMultiplier (setMap r in_ out size) = snapMultiplier r.
Proof. repeat split. Qed.

(** ** The range mapper *)

Lemma read_elt (a : list Z) (i : Z) :
  0 <= i < Z.of_nat (length a) -> read a i = Done (elt a i).
Proof.
  intros [Hlo Hhi]. unfold read, elt.
  destruct (i <? 0) eqn:E; [lia |].
  rewrite (nth_error_nth' a 0) by lia. reflexivity.
Qed.

Lemma read_done (a : list Z) (i v : Z) :
  read a i = Done v -> 0 <= i < Z.of_nat (length a).
Proof.
  unfold read. destruct (i <? 0) eqn:E; [discriminate |].
  destruct (nth_error a (Z.to_nat i)) eqn:N; [| discriminate].
  intros _. assert (H : nth_error a (Z.to_nat i) <> None) by congruence.
  apply nth_error_Some in H. lia.
Qed.

Lemma strictly_increasing_step (l : list Z) :
  strictly_increasing l = true ->
  forall i : nat, (S i < length l)%nat -> nth i l 0 < nth (S i) l 0.
Proof.
  induction l as [| a [| b rest] IH]; intros H i Hi; cbn in Hi; try lia.
  cbn [strictly_increasing] in H. apply andb_true_iff in H.
  destruct H as [Hab Hrest]. destruct i as [| i].
  - cbn. lia.
  - change (nth i (b :: rest) 0 < nth (S i) (b :: rest) 0).
    apply IH; [exact Hrest | cbn; lia].
Qed.

Lemma strictly_increasing_nth (l : list Z) :
  strictly_increasing l = true ->
  forall i j : nat, (i < j)%nat -> (j < length l)%nat -> nth i l 0 < nth j l 0.
Proof.
  intros H i j Hij. induction Hij as [| j Hij IH]; intro Hj.
  - now apply strictly_increasing_step.
  - pose proof (strictly_increasing_step l H j Hj). lia.
Qed.

Lemma strictly_increasing_elt (l : list Z) (i j : Z) :
  strictly_increasing l = true ->
  0 <= i < j -> j < Z.of_nat (length l) -> elt l i < elt l j.
Proof.
  intros H Hij Hj. unfold elt. apply strictly_increasing_nth; [exact H | lia | lia].
Qed.

Lemma count_below_spec (l : list Z) (val : Z) (k : nat) :
  (k < length l)%nat -> val <= nth k l 0 ->
  (count_below l val <= k)%nat
  /\ val <= nth (count_below l val) l 0
  /\ forall j : nat, (j < count_below l val)%nat -> nth j l 0 < val.
Proof.
  revert k. induction l as [| a rest IH]; intros k Hk Hv; cbn in Hk; [lia |].
  cbn [count_below]. destruct (val <=? a) eqn:E.
  - repeat split; [lia | cbn; lia | intros j Hj; lia].
  - destruct k as [| k]; [cbn in Hv; lia |].
    destruct (IH k) as (H1 & H2 & H3); [lia | exact Hv |].
    repeat split; [lia | exact H2 |].
    intros [| j] Hj; [cbn; lia | apply H3; lia].
Qed.

(** The scan stops at the smallest index whose input point is not
    below [val], provided that index is ahead and fuel is left. *)
Lemma scan_first (r : ResponsiveAnalogRead) (val i : Z) :
  i < Z.of_nat (length (_in r)) -> i < 256 -> val <= elt (_in r) i ->
  forall (fuel : nat) (pos : Z),
    0 <= pos <= i ->
    (forall j : Z, pos <= j < i -> elt (_in r) j < val) ->
    (Z.to_nat (i - pos) < fuel)%nat ->
    scan fuel r val pos = Done i.
Proof.
  intros Hlen H256 Hv. induction fuel as [| fuel IH]; intros pos Hpos Hbelow Hfuel.
  - lia.
  - cbn [scan]. rewrite read_elt by lia. cbn [bind].
    destruct (Z.eq_dec pos i) as [-> | Hne].
    + replace (val >? elt (_in r) i) with false by (symmetry; lia).
      reflexivity.
    + assert (Hlt : elt (_in r) pos < val) by (apply Hbelow; lia).
      replace (val >? elt (_in r) pos) with true by (symmetry; lia).
      rewrite Z.mod_small by lia.
      apply IH; [lia | intros j Hj; apply Hbelow; lia | lia].
Qed.

Lemma wrap_int_fits (z : Z) : fits_int z -> wrap_int z = z.
Proof.
  unfold fits_int, int_min, int_max, wrap_int. intro H.
  rewrite Z.mod_small by lia. lia.
Qed.

Lemma segment_int_exact (r : ResponsiveAnalogRead) (val i : Z) :
  interpolation_fits r val i -> segment_int r val i = segment_value r val i.
Proof.
  unfold interpolation_fits, segment_int, segment_value, line181.
  intros (Ha & Hb & Hab & Hd & Hq & Hs).
  rewrite (wrap_int_fits _ Ha), (wrap_int_fits _ Hb), (wrap_int_fits _ Hab),
    (wrap_int_fits _ Hd), (wrap_int_fits _ Hq), (wrap_int_fits _ Hs).
  lia.
Qed.

Section WellFormed.

Variable r : ResponsiveAnalogRead.
Hypothesis Hwf : well_formed r = true.

Lemma wf_size : 2 <= _mapSize r < 256.
Proof.
  unfold well_formed, well_formed_table in Hwf.
  repeat (apply andb_true_iff in Hwf; destruct Hwf as [Hwf ?]). lia.
Qed.

Lemma wf_length_in : Z.of_nat (length (_in r)) = _mapSize r.
Proof.
  unfold well_formed, well_formed_table in Hwf.
  repeat (apply andb_true_iff in Hwf; destruct Hwf as [Hwf ?]). lia.
Qed.

Lemma wf_length_out : Z.of_nat (length (_out r)) = _mapSize r.
Proof.
  unfold well_formed, well_formed_table in Hwf.
  repeat (apply andb_true_iff in Hwf; destruct Hwf as [Hwf ?]). lia.
Qed.

Lemma wf_increasing (i j : Z) :
  0 <= i < j -> j < _mapSize r -> elt (_in r) i < elt (_in r) j.
Proof.
  intros Hij Hj. apply strictly_increasing_elt; [| lia | rewrite wf_length_in; lia].
  unfold well_formed, well_formed_table in Hwf.
  apply andb_true_iff in Hwf. tauto.
Qed.

Lemma multiMap_low (fuel : nat) (val : Z) :
  val <= elt (_in r) 0 -> multiMap fuel r val = Done (elt (_out r) 0).
Proof.
  intro Hv. pose proof wf_size. unfold multiMap.
  rewrite read_elt by (rewrite wf_length_in; lia). cbn [bind].
  replace (val <=? elt (_in r) 0) with true by (symmetry; lia).
  apply read_elt. rewrite wf_length_out. lia.
Qed.

Lemma multiMap_high (fuel : nat) (val : Z) :
  elt (_in r) (_mapSize r - 1) <= val -> multiMap fuel r val = Done (elt (_out r) (_mapSize r - 1)).
Proof.
  intro Hv. pose proof wf_size as Hn.
  assert (H0 : elt (_in r) 0 < elt (_in r) (_mapSize r - 1)) by (apply wf_increasing; lia).
  unfold multiMap.
  rewrite read_elt by (rewrite wf_length_in; lia). cbn [bind].
  replace (val <=? elt (_in r) 0) with false by (symmetry; lia).
  rewrite read_elt by (rewrite wf_length_in; lia). cbn [bind].
  replace (val >=? elt (_in r) (_mapSize r - 1)) with true by (symmetry; lia).
  apply read_elt. rewrite wf_length_out. lia.
Qed.

Lemma first_at_least_exists (val : Z) :
  val <= elt (_in r) (_mapSize r - 1) -> exists i : Z, first_at_least r val i.
Proof.
  intro Hv. pose proof wf_size as Hn. pose proof wf_length_in as Hl.
  destruct (count_below_spec (_in r) val (Z.to_nat (_mapSize r - 1))) as (H1 & H2 & H3);
    [lia | exact Hv |].
  exists (Z.of_nat (count_below (_in r) val)). unfold first_at_least, elt.
  rewrite Nat2Z.id. repeat split; [lia | lia | exact H2 |].
  intros j Hj. apply H3. lia.
Qed.

Lemma first_at_least_interior (val i : Z) :
  interior r val -> first_at_least r val i -> 1 <= i <= _mapSize r - 1.
Proof.
  intros [Hlo _] (Hi & Hv & _).
  destruct (Z.eq_dec i 0) as [-> | ?]; lia.
Qed.

(** The third exit of [multiMap]: scan, then exact hit or
    interpolation. *)
Lemma multiMap_interior (fuel : nat) (val i : Z) :
  (Z.to_nat (_mapSize r) <= fuel)%nat ->
  interior r val -> first_at_least r val i ->
  scan fuel r val 1 = Done i
  /\ multiMap fuel r val =
     Done (if val =? elt (_in r) i then elt (_out r) i else segment_int r val i).
Proof.
  intros Hfuel Hin Hfirst.
  pose proof wf_size as Hn. pose proof wf_length_in as Hli.
  pose proof wf_length_out as Hlo.
  pose proof (first_at_least_interior val i Hin Hfirst) as Hi.
  destruct Hin as [Hlow Hhigh]. destruct Hfirst as (_ & Hv & Hbelow).
  assert (Hscan : scan fuel r val 1 = Done i).
  { apply scan_first; try lia. intros j Hj. apply Hbelow. lia. }
  split; [exact Hscan |]. unfold multiMap.
  rewrite read_elt by lia. cbn [bind].
  replace (val <=? elt (_in r) 0) with false by (symmetry; lia).
  rewrite read_elt by lia. cbn [bind].
  replace (val >=? elt (_in r) (_mapSize r - 1)) with false by (symmetry; lia).
  rewrite Hscan. cbn [bind]. rewrite read_elt by lia. cbn [bind].
  destruct (val =? elt (_in r) i) eqn:E.
  - apply read_elt. lia.
  - unfold interpolate. rewrite !read_elt by lia. cbn [bind].
    assert (Hprev : elt (_in r) (i - 1) < val) by (apply Hbelow; lia).
    replace (elt (_in r) i - elt (_in r) (i - 1) =? 0) with false
      by (symmetry; lia).
    reflexivity.
Qed.

End WellFormed.

(** C4, as the claim words it, fails: the product of line 181 is an
    [int] product.  On the well-formed table in = 0, 4095,
    out = 0, 1000000 the value 3000 is no input point, the smallest
    index with [_in[i] >= 3000] is 1 and the formula gives 732600, but
    3000 * 1000000 does not fit 32 bits and the call returns -316231. *)
Lemma multiMap_product_overflows :
  well_formed wide_table = true
  /\ interior wide_table 3000
  /\ (forall j : Z, 0 <= j < _mapSize wide_table -> elt (_in wide_table) j <> 3000)
  /\ first_at_least wide_table 3000 1
  /\ multiMap 2 wide_table 3000 = Done (-316231)
  /\ elt (_out wide_table) (1 - 1)
     + (3000 - elt (_in wide_table) (1 - 1))
       * (elt (_out wide_table) 1 - elt (_out wide_table) (1 - 1))
       ÷ (elt (_in wide_table) 1 - elt (_in wide_table) (1 - 1)) = 732600.
Proof.
  split; [reflexivity | split; [split; reflexivity | split; [| split]]].
  - intros j Hj. change (_mapSize wide_table) with 2 in Hj.
    assert (Hc : j = 0 \/ j = 1) by lia.
    destruct Hc as [-> | ->]; discriminate.
  - split; [split; [discriminate | reflexivity] | split; [discriminate |]].
    intros j Hj. assert (j = 0) by lia. subst j. reflexivity.
  - split; reflexivity.
Qed.

(** C4, amended.  Interpolation.  On a well-formed table, for [val]
    strictly between the first and the last input point and equal to no
    input point, there is a smallest index [i] with [_in[i] >= val], it
    is at least 1, the scan stops on it, and the call returns the
    expression of line 181 evaluated on [int].  When no intermediate
    result of that expression leaves the range of [int], that is
    [_out[i-1] + (val - _in[i-1]) * (_out[i] - _out[i-1]) / (_in[i] - _in[i-1])]
    with the division truncating toward zero.  On the table
    in = 0, 100, 200, out = 0, 128, 255 the value 50 is mapped to 64. *)
Theorem multiMap_interpolates :
  (forall (r : ResponsiveAnalogRead) (val : Z) (fuel : nat),
     well_formed r = true ->
     (Z.to_nat (_mapSize r) <= fuel)%nat ->
     interior r val ->
     (forall j : Z, 0 <= j < _mapSize r -> elt (_in r) j <> val) ->
     (exists i : Z, first_at_least r val i)
     /\ (forall i : Z, first_at_least r val i ->
           1 <= i
           /\ scan fuel r val 1 = Done i
           /\ multiMap fuel r val = Done (segment_int r val i)
           /\ (interpolation_fits r val i ->
               multiMap fuel r val =
               Done (elt (_out r) (i - 1)
                     + (val - elt (_in r) (i - 1))
                       * (elt (_out r) i - elt (_out r) (i - 1))
                       ÷ (elt (_in r) i - elt (_in r) (i - 1))))))
  /\ multiMap 3 example_table 50 = Done 64.
Proof.
  split; [| reflexivity].
  intros r val fuel Hwf Hfuel Hin Hnot. split.
  - apply first_at_least_exists; [exact Hwf |]. destruct Hin. lia.
  - intros i Hfirst.
    pose proof (first_at_least_interior r val i Hin Hfirst) as Hi.
    destruct (multiMap_interior r Hwf fuel val i Hfuel Hin Hfirst) as [Hscan Hmap].
    assert (Hint : multiMap fuel r val = Done (segment_int r val i)).
    { rewrite Hmap. destruct Hfirst as (Hrange & _).
      replace (val =? elt (_in r) i) with false; [reflexivity |].
      symmetry. apply Z.eqb_neq. intro Heq. now apply (Hnot i). }
    split; [lia | split; [exact Hscan | split; [exact Hint |]]].
    intro Hfits. rewrite Hint, (segment_int_exact r val i Hfits). reflexivity.
Qed.

Lemma multiMap_interpolates_witness :
  exists i : Z, first_at_least example_table 150 i
                /\ multiMap 3 example_table 150 = Done (segment_value example_table 150 i).
Proof.
  destruct multiMap_interpolates as [H _].
  destruct (H example_table 150 3%nat) as [[i Hi] Hall].
  - reflexivity.
  - exact (le_n 3).
  - split; reflexivity.
  - intros j Hj. change (_mapSize example_table) with 3 in Hj.
    assert (Hc : j = 0 \/ j = 1 \/ j = 2) by lia.
    destruct Hc as [-> | [-> | ->]]; discriminate.
  - exists i. split; [exact Hi |].
    destruct (Hall i Hi) as (Hi1 & _ & _ & Hexact).
    assert (Hi2 : i = 2).
    { destruct Hi as ((_ & Hhi) & Hle & Hbelow).
      change (_mapSize example_table) with 3 in Hhi.
      assert (Hc : i = 1 \/ i = 2) by lia.
      destruct Hc as [-> | ->]; [| reflexivity].
      exfalso. revert Hle. vm_compute. intro Hle. now apply Hle. }
    subst i. apply Hexact. unfold interpolation_fits, fits_int. vm_compute.
    repeat split; discriminate.
Defined.

(** C5.  Clamping and exact hits.  On a well-formed table every [val]
    up to the first input point is mapped to the first output point,
    every [val] from the last input point on to the last output point,
    and every input point [_in[i]] to its [_out[i]].  On the table
    in = 0, 100, 200, out = 0, 128, 255: 0, 100 and 200 are mapped to
    0, 128 and 255, -10 to the first output and 500 to the last. *)
Theorem multiMap_clamps_and_hits :
  (forall (r : ResponsiveAnalogRead) (fuel : nat),
     well_formed r = true ->
     (Z.to_nat (_mapSize r) <= fuel)%nat ->
     (forall val : Z, val <= elt (_in r) 0 ->
        multiMap fuel r val = Done (elt (_out r) 0))
     /\ (forall val : Z, val >= elt (_in r) (_mapSize r - 1) ->
           multiMap fuel r val = Done (elt (_out r) (_mapSize r - 1)))
     /\ (forall i : Z, 0 <= i < _mapSize r ->
           multiMap fuel r (elt (_in r) i) = Done (elt (_out r) i)))
  /\ multiMap 3 example_table 0 = Done 0
  /\ multiMap 3 example_table 100 = Done 128
  /\ multiMap 3 example_table 200 = Done 255
  /\ multiMap 3 example_table (-10) = Done (elt (_out example_table) 0)
  /\ multiMap 3 example_table 500
     = Done (elt (_out example_table) (_mapSize example_table - 1)).
Proof.
  split; [| repeat split].
  intros r fuel Hwf Hfuel. split; [| split].
  - intros val Hv. now apply multiMap_low.
  - intros val Hv. apply (multiMap_high r Hwf). lia.
  - intros i Hi. pose proof (wf_size r Hwf) as Hn.
    destruct (Z.eq_dec i 0) as [-> | H0].
    { apply multiMap_low; [exact Hwf | lia]. }
    destruct (Z.eq_dec i (_mapSize r - 1)) as [-> | Hlast].
    { apply (multiMap_high r Hwf). lia. }
    assert (Hin : interior r (elt (_in r) i)).
    { split; apply (wf_increasing r Hwf); lia. }
    assert (Hfirst : first_at_least r (elt (_in r) i) i).
    { split; [exact Hi | split; [lia |]].
      intros j Hj. apply (wf_increasing r Hwf); lia. }
    destruct (multiMap_interior r Hwf fuel _ i Hfuel Hin Hfirst) as [_ ->].
    rewrite Z.eqb_refl. reflexivity.
Qed.

Lemma multiMap_clamps_and_hits_witness :
  multiMap 3 example_table (-10) = Done (elt (_out example_table) 0)
  /\ multiMap 3 example_table 100 = Done (elt (_out example_table) 1).
Proof.
  destruct multiMap_clamps_and_hits as [H _].
  destruct (H example_table 3%nat) as (Hlow & _ & Hhit).
  - reflexivity.
  - exact (le_n 3).
  - split.
    + apply Hlow. vm_compute. intro L. discriminate L.
    + apply (Hhit 1). split; [discriminate | reflexivity].
Defined.

(** C9.  Safety of [multiMap].  On a well-formed table (size from 2 to
    255, both arrays of that size, input points strictly increasing)
    and for every [val], the call comes to a value once the fuel covers
    the table size: it neither runs on nor reads outside an array, a
    read giving a value only for an index from 0 to the size less one.
    The scan runs only for [val] strictly between the first and the
    last input point: for any other [val] the call returns without any
    fuel, and for such a [val] the scan, started at 1, stops at a
    position from 1 to the size less one. *)
Theorem multiMap_safe (r : ResponsiveAnalogRead) :
  well_formed r = true ->
  (forall (a : list Z) (i v : Z),
     read a i = Done v -> 0 <= i <= Z.of_nat (length a) - 1)
  /\ Z.of_nat (length (_in r)) = _mapSize r
  /\ Z.of_nat (length (_out r)) = _mapSize r
  /\ (forall (val : Z) (fuel : nat),
        (Z.to_nat (_mapSize r) <= fuel)%nat ->
        (exists v : Z, multiMap fuel r val = Done v)
        /\ (interior r val ->
            exists pos : Z,
              scan fuel r val 1 = Done pos /\ 1 <= pos <= _mapSize r - 1)
        /\ (~ interior r val ->
            multiMap 0 r val = multiMap fuel r val)).
Proof.
  intro Hwf. split; [| split; [| split]].
  - intros a i v H. apply read_done in H. lia.
  - now apply wf_length_in.
  - now apply wf_length_out.
  - intros val fuel Hfuel. pose proof (wf_size r Hwf) as Hn.
    destruct (Z_le_gt_dec val (elt (_in r) 0)) as [Hlow | Hlow].
    { split; [| split].
      - eexists. now apply multiMap_low.
      - intros [H _]. lia.
      - intros _. rewrite !multiMap_low by assumption. reflexivity. }
    destruct (Z_le_gt_dec (elt (_in r) (_mapSize r - 1)) val) as [Hhigh | Hhigh].
    { split; [| split].
      - eexists. now apply (multiMap_high r Hwf).
      - intros [_ H]. lia.
      - intros _. rewrite !(multiMap_high r Hwf) by assumption. reflexivity. }
    assert (Hin : interior r val) by (split; lia).
    destruct (first_at_least_exists r Hwf val) as [i Hfirst]; [lia |].
    destruct (multiMap_interior r Hwf fuel val i Hfuel Hin Hfirst) as [Hscan Hmap].
    split; [| split].
    + eexists. exact Hmap.
    + intros _. exists i. split; [exact Hscan |].
      now apply (first_at_least_interior r val).
    + intro Hno. contradiction.
Qed.

Lemma multiMap_safe_witness :
  exists v : Z, multiMap 3 example_table 199 = Done v.
Proof.
  destruct (multiMap_safe example_table) as (_ & _ & _ & H).
  - reflexivity.
  - destruct (H 199 3%nat) as [Hv _].
    + exact (le_n 3).
    + exact Hv.
Defined.

(** Off a well-formed table the call can go wrong: with the size 0 the
    first read is outside the array. *)
Example multiMap_empty_faults :
  multiMap 3 (setMap (initial false c0_0) [] [] 0) 7 = Fault.
Proof. reflexivity. Qed.

(** ** C6: the snap curve *)

Lemma Qinv_succ_bounds (q : Q) : (0 <= q -> 0 < / (q + 1) <= 1)%Q.
Proof.
  intro H. split.
  - apply Qinv_lt_0_compat. lra.
  - apply Qle_shift_inv_r; lra.
Qed.

Lemma Qinv_succ_antitone (p q : Q) :
  (0 <= p -> p <= q -> / (q + 1) <= / (p + 1))%Q.
Proof.
  intros Hp Hpq.
  destruct (Qinv_succ_bounds p Hp) as [Hpos _].
  apply Qle_shift_inv_r; [lra |].
  assert (H1 : (/ (p + 1) * (p + 1) == 1)%Q) by (field; lra).
  assert (H2 : (0 <= / (p + 1) * (q - p))%Q) by (apply Qmult_le_0_compat; lra).
  assert (H3 : (/ (p + 1) * (q + 1) == / (p + 1) * (p + 1) + / (p + 1) * (q - p))%Q)
    by ring.
  rewrite H3, H1. lra.
Qed.

Lemma Qinv_succ_half (q : Q) : (1 <= q -> / (q + 1) <= 1 # 2)%Q.
Proof. intro H. apply Qle_shift_inv_r; lra. Qed.

Lemma this_hyperbola (x : float) :
  (this (hyperbola x) == 2 * (1 - / (this x + 1)))%Q.
Proof.
  unfold hyperbola.
  rewrite this_mult, this_minus, this_div, this_plus.
  change (this c1_0) with 1%Q. change (this c2_0) with 2%Q.
  unfold Qdiv. ring.
Qed.

Lemma snapCurve_fmin (x : float) : snapCurve x = fmin (hyperbola x) c1_0.
Proof.
  unfold snapCurve, fmin, hyperbola, gtb.
  rewrite (Qcmult_comm c2_0). reflexivity.
Qed.

Lemma snapCurve_unfold (x : float) :
  snapCurve x = if (c1_0 <? hyperbola x)%F then c1_0 else hyperbola x.
Proof. rewrite snapCurve_fmin. reflexivity. Qed.

Lemma fmin_is_min (a b : float) :
  (fmin a b <= a)%F /\ (fmin a b <= b)%F /\ (fmin a b = a \/ fmin a b = b).
Proof.
  unfold fmin. destruct (b <? a)%F eqn:E.
  - apply ltb_lt in E. repeat split; [now apply Qclt_le_weak | apply Qcle_refl | now right].
  - apply ltb_ge in E. repeat split; [apply Qcle_refl | exact E | now left].
Qed.

Lemma snapCurve_zero : snapCurve c0_0 = c0_0.
Proof. apply Qc_is_canon. reflexivity. Qed.

Lemma snapCurve_high (x : float) : (c1_0 <= x)%F -> snapCurve x = c1_0.
Proof.
  intro Hx. rewrite snapCurve_unfold.
  destruct (c1_0 <? hyperbola x)%F eqn:E; [reflexivity |].
  apply ltb_ge in E. apply Qcle_antisym; [exact E |].
  unfold Qcle in *. rewrite this_hyperbola.
  change (this c1_0) with 1%Q in *.
  pose proof (Qinv_succ_half (this x) Hx). lra.
Qed.

Lemma snapCurve_monotone (x y : float) :
  (c0_0 <= x)%F -> (x <= y)%F -> (snapCurve x <= snapCurve y)%F.
Proof.
  intros Hx Hxy. rewrite !snapCurve_unfold.
  assert (Hh : (hyperbola x <= hyperbola y)%F).
  { unfold Qcle in *. rewrite !this_hyperbola.
    change (this c0_0) with 0%Q in Hx.
    pose proof (Qinv_succ_antitone (this x) (this y) Hx Hxy). lra. }
  destruct (c1_0 <? hyperbola x)%F eqn:Ex, (c1_0 <? hyperbola y)%F eqn:Ey.
  - apply Qcle_refl.
  - apply ltb_lt in Ex. apply ltb_ge in Ey. exfalso.
    apply (Qclt_not_le _ _ Ex). now apply Qcle_trans with (hyperbola y).
  - now apply ltb_ge in Ex.
  - exact Hh.
Qed.

Lemma snapCurve_range (x : float) :
  (c0_0 <= x)%F -> (c0_0 <= snapCurve x <= c1_0)%F.
Proof.
  intro Hx. split.
  - rewrite <- snapCurve_zero at 1. apply snapCurve_monotone; [apply Qcle_refl | exact Hx].
  - rewrite snapCurve_unfold. destruct (c1_0 <? hyperbola x)%F eqn:E.
    + apply Qcle_refl.
    + now apply ltb_ge in E.
Qed.

Lemma snapCurve_limit (eps : float) :
  (c0_0 < eps)%F ->
  exists N : float, forall x : float,
    (N <= x)%F -> (Qcabs (snapCurve x - c1_0) < eps)%F.
Proof.
  intro He. exists c1_0. intros x Hx. rewrite (snapCurve_high x Hx).
  replace (Qcabs (c1_0 - c1_0)%F) with c0_0 by (apply Qc_is_canon; reflexivity).
  exact He.
Qed.

Lemma to_int_abs_nonneg (x : float) : 0 <= to_int (Qcabs x).
Proof.
  unfold to_int. pose proof (Qcabs_nonneg x) as H. unfold Qcle in H.
  cbn [this Q2Qc Qred] in H. revert H.
  destruct (this (Qcabs x)) as [a b]. unfold Qle. cbn. intro H.
  apply Z.quot_pos; lia.
Qed.

Lemma snapArg_nonneg (r : ResponsiveAnalogRead) (x : Z) :
  (c0_0 <= snapMultiplier r)%F -> (c0_0 <= snapArg r x)%F.
Proof.
  intro Hm. unfold snapArg.
  pose proof (to_int_abs_nonneg (of_int (edgeSnap r x) - smoothValue r)%F) as Hd.
  apply (of_int_le 0) in Hd.
  unfold Qcle in *. rewrite this_mult.
  change (this c0_0) with 0%Q in *. change (this (of_int 0)) with 0%Q in Hd.
  now apply Qmult_le_0_compat.
Qed.

Lemma setSnapMultiplier_range (r : ResponsiveAnalogRead) (m : float) :
  (c0_0 <= snapMultiplier (setSnapMultiplier r m) <= c1_0)%F.
Proof.
  unfold setSnapMultiplier, gtb. cbn [snapMultiplier set_snapMultiplier].
  destruct (c1_0 <? m)%F eqn:E1.
  - change (c1_0 <? c0_0)%F with false. split; [discriminate | apply Qcle_refl].
  - apply ltb_ge in E1. destruct (m <? c0_0)%F eqn:E0.
    + split; [apply Qcle_refl | discriminate].
    + apply ltb_ge in E0. split; assumption.
Qed.

(** C6, as the claim words it, fails in its last part: with the
    smoothed value on the sample the difference is 0 and so is [snap],
    which is not in (0, 1]. *)
Lemma snap_can_be_zero :
  asleep (initial false c1_0) 0 = false
  /\ snapCurve (snapArg (initial false c1_0) 0) = c0_0
  /\ ~ (c0_0 < snapCurve (snapArg (initial false c1_0) 0))%F.
Proof.
  split; [reflexivity | split].
  - apply Qc_is_canon. reflexivity.
  - intro H. vm_compute in H. discriminate H.
Qed.

(** C6, amended.  [snapCurve x] is the smaller of [2 * (1 - 1/(x+1))]
    and 1; it is 0 at 0, it is 1 from 1 on and so tends to 1, it is
    non-decreasing on the non-negative floats and lies in [0, 1] there.
    Hence [snap = snapCurve (diff * snapMultiplier)] lies in [0, 1] for
    a non-negative [snapMultiplier], which is all [setSnapMultiplier]
    ever stores; the value 0 is taken, when [diff] is 0. *)
Theorem snapCurve_shape :
  (forall x : float,
     snapCurve x = fmin (hyperbola x) c1_0
     /\ (fmin (hyperbola x) c1_0 <= hyperbola x)%F
     /\ (fmin (hyperbola x) c1_0 <= c1_0)%F
     /\ (fmin (hyperbola x) c1_0 = hyperbola x \/ fmin (hyperbola x) c1_0 = c1_0))
  /\ snapCurve c0_0 = c0_0
  /\ (forall x : float, (c1_0 <= x)%F -> snapCurve x = c1_0)
  /\ (forall eps : float, (c0_0 < eps)%F ->
        exists N : float, forall x : float,
          (N <= x)%F -> (Qcabs (snapCurve x - c1_0) < eps)%F)
  /\ (forall x y : float,
        (c0_0 <= x)%F -> (x <= y)%F -> (snapCurve x <= snapCurve y)%F)
  /\ (forall x : float, (c0_0 <= x)%F -> (c0_0 <= snapCurve x <= c1_0)%F)
  /\ (forall (r : ResponsiveAnalogRead) (x : Z),
        (c0_0 <= snapMultiplier r)%F ->
        (c0_0 <= snapCurve (snapArg r x) <= c1_0)%F)
  /\ (forall (r : ResponsiveAnalogRead) (m : float),
        (c0_0 <= snapMultiplier (setSnapMultiplier r m) <= c1_0)%F).
Proof.
  split; [| split; [| split; [| split; [| split; [| split; [| split]]]]]].
  - intro x. split; [apply snapCurve_fmin | apply fmin_is_min].
  - exact snapCurve_zero.
  - exact snapCurve_high.
  - exact snapCurve_limit.
  - exact snapCurve_monotone.
  - exact snapCurve_range.
  - intros r x Hm. apply snapCurve_range. now apply snapArg_nonneg.
  - exact setSnapMultiplier_range.
Qed.

Lemma snapCurve_shape_witness :
  (snapCurve (Q2Qc (1 # 4)) <= snapCurve (Q2Qc (1 # 2)))%F
  /\ snapCurve (of_int 3) = c1_0
  /\ (c0_0 <= snapCurve (snapArg (initial true (Q2Qc (1 # 100))) 37) <= c1_0)%F.
Proof.
  destruct snapCurve_shape as (_ & _ & Hhigh & _ & Hmono & _ & Hsnap & _).
  split; [| split].
  - apply Hmono; vm_compute; discriminate.
  - apply Hhigh. vm_compute. discriminate.
  - apply Hsnap. vm_compute. discriminate.
Defined.

(** * Further properties of the filter *)

Lemma this_abs (a : float) : this (Qcabs a) = Qabs.Qabs (this a).
Proof. reflexivity. Qed.

Lemma blend_between (s n k lo hi : float) :
  (c0_0 <= k <= c1_0)%F -> (lo <= s <= hi)%F -> (lo <= n <= hi)%F ->
  (lo <= s + (n - s) * k <= hi)%F.
Proof.
  unfold Qcle. rewrite this_plus, this_mult, this_minus.
  change (this c0_0) with 0%Q. change (this c1_0) with 1%Q.
  generalize (this s) (this n) (this k) (this lo) (this hi).
  intros S N K L H [Hk0 Hk1] [HS1 HS2] [HN1 HN2]. split; nra.
Qed.

Lemma blend_zero (s n : Qc) : (s + (n - s) * c0_0)%F = s.
Proof. unfold c0_0. ring. Qed.

Lemma blend_one (s n : Qc) : (s + (n - s) * c1_0)%F = n.
Proof. unfold c1_0. ring. Qed.

Lemma to_int_between (s : float) (a b : Z) :
  (c0_0 <= s)%F -> (of_int a <= s <= of_int b)%F -> a <= to_int s <= b.
Proof.
  unfold Qcle, to_int. rewrite !this_of_int. change (this c0_0) with 0%Q.
  destruct (this s) as [p q]. unfold Qle. cbn. intros H0 [Ha Hb].
  rewrite Z.quot_div_nonneg by lia. split.
  - apply Z.div_le_lower_bound; lia.
  - apply Z.div_le_upper_bound; lia.
Qed.

Lemma to_int_small (s : float) :
  (c0_0 <= s)%F -> (s < c1_0)%F -> to_int s = 0.
Proof.
  unfold Qcle, Qclt, to_int. change (this c0_0) with 0%Q. change (this c1_0) with 1%Q.
  destruct (this s) as [p q]. unfold Qle, Qlt. cbn. intros H0 H1.
  apply Z.quot_small. lia.
Qed.

Lemma clampSmooth_id (r : ResponsiveAnalogRead) (s : float) :
  (c0_0 <= s <= of_int (analogResolution r - 1))%F -> clampSmooth r s = s.
Proof.
  intros [H0 H1]. unfold clampSmooth, gtb.
  apply ltb_ge in H0. apply ltb_ge in H1. rewrite H0, H1. reflexivity.
Qed.

Lemma clampSmooth_between (r : ResponsiveAnalogRead) (s lo hi : float) :
  (lo <= s <= hi)%F -> (c0_0 <= hi)%F -> (lo <= of_int (analogResolution r - 1))%F ->
  (lo <= clampSmooth r s <= hi)%F.
Proof.
  intros [Hlo Hhi] H0 H1. unfold clampSmooth, gtb.
  destruct (s <? c0_0)%F eqn:E0.
  - apply ltb_lt in E0. split; [| exact H0].
    apply Qcle_trans with s; [exact Hlo | now apply Qclt_le_weak].
  - destruct (of_int (analogResolution r - 1) <? s)%F eqn:E1.
    + apply ltb_lt in E1. split; [exact H1 |].
      apply Qcle_trans with s; [now apply Qclt_le_weak | exact Hhi].
    + split; assumption.
Qed.

(** The blend weight of a waking call. *)
Lemma snap_weight_range (r : ResponsiveAnalogRead) (x : Z) :
  (c0_0 <= snapMultiplier r)%F ->
  (c0_0 <= (if sleepEnable r then snapScale (snapCurve (snapArg r x))
            else snapCurve (snapArg r x)) <= c1_0)%F.
Proof.
  intro Hm. rewrite snapScale_id.
  destruct (sleepEnable r); apply snapCurve_range; now apply snapArg_nonneg.
Qed.

Lemma nextSmooth_between (r : ResponsiveAnalogRead) (x : Z) (lo hi : float) :
  (c0_0 <= snapMultiplier r)%F ->
  smooth_in_range r ->
  (lo <= smoothValue r <= hi)%F ->
  (lo <= of_int (edgeSnap r x) <= hi)%F ->
  (lo <= nextSmooth r x <= hi)%F.
Proof.
  intros Hm [H0 H1] Hs Hn. unfold nextSmooth.
  apply clampSmooth_between.
  - apply blend_between; [now apply snap_weight_range | exact Hs | exact Hn].
  - apply Qcle_trans with (smoothValue r); [exact H0 | apply Hs].
  - apply Qcle_trans with (smoothValue r); [apply Hs | exact H1].
Qed.

Lemma edgeSnap_update (r : ResponsiveAnalogRead) (y x : Z) :
  edgeSnap (update r y) x = edgeSnap r x.
Proof.
  unfold edgeSnap.
  destruct (update_config r y) as (-> & -> & -> & -> & _). reflexivity.
Qed.

Lemma update_between (r : ResponsiveAnalogRead) (x : Z) (lo hi : float) :
  (c0_0 <= snapMultiplier r)%F ->
  smooth_in_range r ->
  (lo <= smoothValue r <= hi)%F ->
  (lo <= of_int (edgeSnap r x) <= hi)%F ->
  (lo <= smoothValue (update r x) <= hi)%F.
Proof.
  intros Hm Hinv Hs Hn. destruct (asleep r x) eqn:E.
  - destruct (update_asleep _ _ E) as (-> & _). exact Hs.
  - destruct (update_awake _ _ E) as (-> & _). now apply nextSmooth_between.
Qed.

(** No overshoot.  With a non-negative [snapMultiplier] and
    [smoothValue] within [0, analogResolution - 1], a call moves
    [smoothValue] no further than the sample it sees: whenever
    [smoothValue] and that sample lie between two bounds, so does the
    new [smoothValue]. *)
Theorem update_no_overshoot (r : ResponsiveAnalogRead) (x : Z) (lo hi : float) :
  (c0_0 <= snapMultiplier r)%F ->
  smooth_in_range r ->
  (lo <= smoothValue r <= hi)%F ->
  (lo <= of_int (edgeSnap r x) <= hi)%F ->
  (lo <= smoothValue (update r x) <= hi)%F.
Proof.
  intros Hm Hinv Hs Hn. destruct (asleep r x) eqn:E.
  - destruct (update_asleep _ _ E) as (-> & _). exact Hs.
  - destruct (update_awake _ _ E) as (-> & _). now apply nextSmooth_between.
Qed.

Lemma update_no_overshoot_witness :
  (of_int 100 <= smoothValue (update (set_smoothValue (initial false c1_0) (of_int 100)) 103)
   <= of_int 103)%F.
Proof.
  apply update_no_overshoot.
  - vm_compute. discriminate.
  - split; vm_compute; discriminate.
  - split; vm_compute; discriminate.
  - split; vm_compute; discriminate.
Defined.

Lemma run_between (samples : list Z) : forall (r : ResponsiveAnalogRead) (a b : Z),
  (c0_0 <= snapMultiplier r)%F ->
  smooth_in_range r ->
  (of_int a <= smoothValue r <= of_int b)%F ->
  Forall (seen_between r a b) samples ->
  Forall (fun o => a <= o <= b) (fst (run r samples))
  /\ (of_int a <= smoothValue (snd (run r samples)) <= of_int b)%F.
Proof.
  induction samples as [| x rest IH]; intros r a b Hm Hinv Hs Hall.
  - cbn. split; [constructor | exact Hs].
  - inversion Hall as [| ? ? Hx Hrest]; subst. rewrite run_cons. cbn [fst snd].
    destruct Hx as [Hxa Hxb].
    assert (Hres : 1 <= analogResolution r).
    { destruct Hinv as [H0 H1]. pose proof (Qcle_trans _ _ _ H0 H1) as H.
      unfold Qcle in H. rewrite this_of_int in H.
      change (this c0_0) with (inject_Z 0) in H.
      rewrite <- Zle_Qle in H. lia. }
    pose proof (update_smooth_in_range r x Hres Hinv) as Hinv'.
    assert (Hs' : (of_int a <= smoothValue (update r x) <= of_int b)%F).
    { apply update_between; trivial. split; now apply of_int_le. }
    destruct (update_config r x) as (_ & _ & _ & _ & Hmul).
    destruct (IH (update r x) a b) as [IHo IHs]; trivial.
    + rewrite Hmul. exact Hm.
    + revert Hrest. apply Forall_impl. intros y. unfold seen_between.
      now rewrite edgeSnap_update.
    + split; [| exact IHs]. constructor; [| exact IHo].
      rewrite update_output. apply to_int_between; [apply Hinv' | exact Hs'].
Qed.

(** Confinement.  With a non-negative [snapMultiplier], a filter whose
    [smoothValue] lies in [0, analogResolution - 1] and between two
    integers [a] and [b], fed with samples that it sees between [a] and
    [b], emits only outputs between [a] and [b]. *)
Theorem run_confined (r : ResponsiveAnalogRead) (a b : Z) (samples : list Z) :
  (c0_0 <= snapMultiplier r)%F ->
  smooth_in_range r ->
  (of_int a <= smoothValue r <= of_int b)%F ->
  Forall (seen_between r a b) samples ->
  Forall (fun o => a <= o <= b) (fst (run r samples)).
Proof.
  intros Hm Hinv Hs Hall. now apply (run_between samples r a b).
Qed.

Lemma run_confined_witness :
  Forall (fun o => 200 <= o <= 300)
    (fst (run (set_smoothValue (initial false c1_0) (of_int 250)) [200; 300; 251; 299])).
Proof.
  apply run_confined.
  - vm_compute. discriminate.
  - split; vm_compute; discriminate.
  - split; vm_compute; discriminate.
  - repeat constructor; vm_compute; discriminate.
Defined.

(** Dead band.  A sample that the filter sees less than one unit away
    from [smoothValue] does not move [smoothValue]: the difference is
    truncated to the unsigned integer 0 and the snap curve gives the
    weight 0. *)
Theorem update_dead_band (r : ResponsiveAnalogRead) (x : Z) :
  smooth_in_range r ->
  (Qcabs (of_int (edgeSnap r x) - smoothValue r) < c1_0)%F ->
  smoothValue (update r x) = smoothValue r
  /\ responsiveValue (update r x) = to_int (smoothValue r).
Proof.
  intros Hinv Hd.
  assert (Hgoal : smoothValue (update r x) = smoothValue r).
  { destruct (asleep r x) eqn:E.
    - now destruct (update_asleep _ _ E) as (-> & _).
    - destruct (update_awake _ _ E) as (-> & _). unfold nextSmooth, snapArg.
      rewrite to_int_small; [| apply Qcabs_nonneg | exact Hd].
      replace (of_int 0 * snapMultiplier r)%F with c0_0
        by (symmetry; apply Qcmult_0_l).
      rewrite snapCurve_zero, snapScale_id.
      replace (if sleepEnable r then c0_0 else c0_0) with c0_0
        by (destruct (sleepEnable r); reflexivity).
      rewrite blend_zero. now apply clampSmooth_id. }
  split; [exact Hgoal |]. rewrite update_output, Hgoal. reflexivity.
Qed.

Lemma update_dead_band_witness :
  smoothValue (update (set_smoothValue (initial false c1_0) (Q2Qc (1001 # 10))) 101)
  = Q2Qc (1001 # 10).
Proof.
  apply update_dead_band.
  - split; vm_compute; discriminate.
  - vm_compute. reflexivity.
Defined.

(** Snap to the sample.  On a waking call whose truncated difference
    times [snapMultiplier] is at least 1 the weight is 1: [smoothValue]
    becomes the sample the filter sees, clamped; for a sample seen
    inside [0, analogResolution - 1] the output is that sample. *)
Theorem update_snaps (r : ResponsiveAnalogRead) (x : Z) :
  asleep r x = false ->
  (c1_0 <= snapArg r x)%F ->
  smoothValue (update r x) = clampSmooth r (of_int (edgeSnap r x))
  /\ (0 <= edgeSnap r x <= analogResolution r - 1 ->
      responsiveValue (update r x) = edgeSnap r x).
Proof.
  intros E Hbig.
  assert (Hs : smoothValue (update r x) = clampSmooth r (of_int (edgeSnap r x))).
  { destruct (update_awake _ _ E) as (-> & _). unfold nextSmooth.
    rewrite (snapCurve_high _ Hbig), snapScale_id.
    replace (if sleepEnable r then c1_0 else c1_0) with c1_0
      by (destruct (sleepEnable r); reflexivity).
    now rewrite blend_one. }
  split; [exact Hs |]. intros [Hlo Hhi].
  rewrite update_output, Hs, clampSmooth_id.
  - apply to_int_of_int.
  - split; [apply (of_int_le 0); exact Hlo | apply of_int_le; exact Hhi].
Qed.

Lemma update_snaps_witness :
  responsiveValue (update (initial false c1_0) 700) = 700.
Proof.
  destruct (update_snaps (initial false c1_0) 700) as [_ H].
  - reflexivity.
  - vm_compute. discriminate.
  - apply H. split; vm_compute; discriminate.
Defined.

(** ** Falling asleep and waking up *)

Lemma this_nextErrorEMA (r : ResponsiveAnalogRead) (n : Z) :
  (this (nextErrorEMA r n)
   == this (errorEMA r)
      + ((inject_Z n - this (smoothValue r)) - this (errorEMA r)) * (2 # 5))%Q.
Proof.
  unfold nextErrorEMA.
  rewrite this_plus, this_mult, !this_minus, this_of_int. reflexivity.
Qed.

(** The error average is a blend of its old value and the raw error:
    it stays below a bound that both respect, and it reaches a bound
    that the raw error exceeds four times over. *)
Lemma nextErrorEMA_small (r : ResponsiveAnalogRead) (n : Z) (t : float) :
  (Qcabs (errorEMA r) < t)%F ->
  (Qcabs (of_int n - smoothValue r) < t)%F ->
  (Qcabs (nextErrorEMA r n) < t)%F.
Proof.
  unfold Qclt. rewrite !this_abs, this_nextErrorEMA, this_minus, this_of_int.
  generalize (this (errorEMA r)) (this (smoothValue r)) (this t). intros e s T He Hd.
  apply Qabs.Qabs_Qlt_condition in He. apply Qabs.Qabs_Qlt_condition in Hd.
  apply Qabs.Qabs_Qlt_condition. split; lra.
Qed.

Lemma nextErrorEMA_large (r : ResponsiveAnalogRead) (n : Z) (t : float) :
  (Qcabs (errorEMA r) <= t)%F ->
  (of_int 4 * t <= Qcabs (of_int n - smoothValue r))%F ->
  (t <= Qcabs (nextErrorEMA r n))%F.
Proof.
  unfold Qcle. rewrite !this_abs, this_mult, this_nextErrorEMA, this_minus, !this_of_int.
  generalize (this (errorEMA r)) (this (smoothValue r)) (this t). intros e s T He Hd.
  apply Qabs.Qabs_Qle_condition in He.
  set (e' := (e + (inject_Z n - s - e) * (2 # 5))%Q).
  change (inject_Z 4) with 4%Q in Hd.
  destruct (Qlt_le_dec (inject_Z n - s) 0) as [Hneg | Hpos].
  - rewrite Qabs.Qabs_neg in Hd by lra.
    apply Qle_trans with (- e')%Q; [unfold e'; lra |].
    rewrite <- Qabs.Qabs_opp. apply Qabs.Qle_Qabs.
  - rewrite Qabs.Qabs_pos in Hd by lra.
    apply Qle_trans with e'; [unfold e'; lra | apply Qabs.Qle_Qabs].
Qed.

Lemma update_awake_sleeping (r : ResponsiveAnalogRead) (x : Z) :
  sleepEnable r = true -> asleep r x = false -> sleeping (update r x) = false.
Proof.
  intros Hs E. unfold update.
  set (r0 := set_prevResponsiveValue (set_rawValue r x) (responsiveValue (set_rawValue r x))).
  change (rawValue r0) with x.
  assert (E0 : asleep r0 x = false) by exact E.
  rewrite (getResponsiveValue_awake _ _ E0). subst r0. cbn. rewrite Hs. reflexivity.
Qed.

(** Waking up.  With [sleepEnable] set and [|errorEMA|] not above
    [activityThreshold] (as it is after any sleeping call), a sample
    seen at least four thresholds away from [smoothValue] wakes the
    filter at once: the call does not sleep and [smoothValue] is
    updated. *)
Theorem update_wakes (r : ResponsiveAnalogRead) (x : Z) :
  sleepEnable r = true ->
  (Qcabs (errorEMA r) <= activityThreshold r)%F ->
  (of_int 4 * activityThreshold r
   <= Qcabs (of_int (edgeSnap r x) - smoothValue r))%F ->
  asleep r x = false
  /\ sleeping (update r x) = false
  /\ smoothValue (update r x) = nextSmooth r x
  /\ responsiveValue (update r x) = to_int (nextSmooth r x).
Proof.
  intros Hs He Hd.
  assert (E : asleep r x = false).
  { unfold asleep, quiet. rewrite Hs. cbn [andb]. apply ltb_ge.
    now apply nextErrorEMA_large. }
  destruct (update_awake _ _ E) as (Hsm & Hout & _).
  repeat split; trivial. now apply update_awake_sleeping.
Qed.

Lemma update_wakes_witness :
  sleeping (update (initial true c1_0) 16) = false
  /\ responsiveValue (update (initial true c1_0) 16) = 16.
Proof.
  destruct (update_wakes (initial true c1_0) 16) as (_ & H1 & _ & H2).
  - reflexivity.
  - vm_compute. discriminate.
  - vm_compute. discriminate.
  - split; [exact H1 | rewrite H2; vm_compute; reflexivity].
Defined.

Lemma stays_quiet_near (samples : list Z) : forall r : ResponsiveAnalogRead,
  sleepEnable r = true ->
  (Qcabs (errorEMA r) < activityThreshold r)%F ->
  Forall (near r (smoothValue r) (activityThreshold r)) samples ->
  stays_quiet r samples.
Proof.
  induction samples as [| x rest IH]; intros r Hs He Hall; [exact I |].
  inversion Hall as [| ? ? Hx Hrest]; subst. cbn [stays_quiet].
  assert (Hq : (Qcabs (errorEMA (update r x)) < activityThreshold r)%F).
  { rewrite update_errorEMA. now apply nextErrorEMA_small. }
  split; [exact Hq |].
  assert (E : asleep r x = true) by (apply asleep_iff; split; assumption).
  destruct (update_asleep _ _ E) as (Hsm & _).
  destruct (update_config r x) as (Hs' & _ & Ht & _).
  apply IH.
  - congruence.
  - rewrite Ht. exact Hq.
  - rewrite Hsm, Ht. revert Hrest. apply Forall_impl. intro y. unfold near.
    now rewrite edgeSnap_update.
Qed.

(** Staying asleep.  With [sleepEnable] set and [|errorEMA|] below
    [activityThreshold], samples that the filter sees less than one
    threshold away from [smoothValue] never wake it, however many
    there are: every call sleeps, every output is the truncated
    [smoothValue], and [smoothValue] is the same at the end. *)
Theorem noise_keeps_asleep (r : ResponsiveAnalogRead) (samples : list Z) :
  sleepEnable r = true ->
  (Qcabs (errorEMA r) < activityThreshold r)%F ->
  Forall (near r (smoothValue r) (activityThreshold r)) samples ->
  stays_quiet r samples
  /\ Forall (eq (to_int (smoothValue r))) (fst (run r samples))
  /\ smoothValue (snd (run r samples)) = smoothValue r
  /\ Forall (fun r' => sleeping r' = true) (trace r samples).
Proof.
  intros Hs He Hall.
  pose proof (stays_quiet_near samples r Hs He Hall) as Hq.
  destruct (run_quiet samples r Hs Hq) as (Ho & Hsm & _).
  repeat split; trivial.
  clear Ho Hsm Hall He. revert r Hs Hq.
  induction samples as [| x rest IH]; intros r Hs Hq; cbn [trace];
    [constructor |].
  destruct Hq as [Hx Hrest]. constructor.
  - assert (E : asleep r x = true) by (apply asleep_iff; split; assumption).
    now destruct (update_asleep _ _ E) as (_ & _ & _ & ->).
  - apply IH; [| exact Hrest].
    destruct (update_config r x) as (-> & _). exact Hs.
Qed.

Lemma noise_keeps_asleep_witness :
  Forall (eq 500)
    (fst (run (set_smoothValue (initial true c1_0) (of_int 500)) [501; 498; 503; 497; 500])).
Proof.
  apply (noise_keeps_asleep (set_smoothValue (initial true c1_0) (of_int 500))).
  - reflexivity.
  - vm_compute. reflexivity.
  - repeat constructor; vm_compute; reflexivity.
Defined.

(** * Further properties of the range mapper *)

Lemma non_decreasing_step (l : list Z) :
  non_decreasing l = true ->
  forall i : nat, (S i < length l)%nat -> nth i l 0 <= nth (S i) l 0.
Proof.
  induction l as [| a [| b rest] IH]; intros H i Hi; cbn in Hi; try lia.
  cbn [non_decreasing] in H. apply andb_true_iff in H.
  destruct H as [Hab Hrest]. destruct i as [| i].
  - cbn. lia.
  - change (nth i (b :: rest) 0 <= nth (S i) (b :: rest) 0).
    apply IH; [exact Hrest | cbn; lia].
Qed.

Lemma non_decreasing_elt (l : list Z) (i j : Z) :
  non_decreasing l = true ->
  0 <= i <= j -> j < Z.of_nat (length l) -> elt l i <= elt l j.
Proof.
  intros H Hij Hj. unfold elt.
  assert (Hnat : forall a b : nat, (a <= b)%nat -> (b < length l)%nat ->
                                   nth a l 0 <= nth b l 0).
  { intros a b Hab. induction Hab as [| b Hab IH]; intro Hb; [lia |].
    pose proof (non_decreasing_step l H b Hb). lia. }
  apply Hnat; lia.
Qed.

(** Truncating division of a scaled difference: the quotient lies
    between 0 and the difference and grows with the scale. *)
Lemma quot_scaled_between (a b c : Z) :
  0 <= a <= c -> 0 < c ->
  (0 <= b -> 0 <= a * b ÷ c <= b) /\ (b <= 0 -> b <= a * b ÷ c <= 0).
Proof.
  intros Ha Hc. split; intro Hb.
  - rewrite Z.quot_div_nonneg by nia. split.
    + apply Z.div_pos; nia.
    + apply Z.div_le_upper_bound; nia.
  - replace (a * b) with (- (a * - b)) by ring.
    rewrite Z.quot_opp_l by lia.
    rewrite Z.quot_div_nonneg by nia.
    assert (0 <= a * - b / c) by (apply Z.div_pos; nia).
    assert (a * - b / c <= - b) by (apply Z.div_le_upper_bound; nia).
    lia.
Qed.

Section AnyTable.

Variable r : ResponsiveAnalogRead.
Hypothesis Hfit : table_fits r = true.

Lemma fit_size : 1 <= _mapSize r < 256.
Proof.
  unfold table_fits in Hfit.
  repeat (apply andb_true_iff in Hfit; destruct Hfit as [Hfit ?]). lia.
Qed.

Lemma fit_length_in : Z.of_nat (length (_in r)) = _mapSize r.
Proof.
  unfold table_fits in Hfit.
  repeat (apply andb_true_iff in Hfit; destruct Hfit as [Hfit ?]). lia.
Qed.

Lemma fit_length_out : Z.of_nat (length (_out r)) = _mapSize r.
Proof.
  unfold table_fits in Hfit.
  repeat (apply andb_true_iff in Hfit; destruct Hfit as [Hfit ?]). lia.
Qed.

(** Every call on a fitting table leaves by one of the three exits. *)
Lemma multiMap_exits (fuel : nat) (val : Z) :
  (Z.to_nat (_mapSize r) <= fuel)%nat ->
  exists v : Z, multiMap fuel r val = Done v /\ multiMap_exit r val v.
Proof.
  intro Hfuel.
  pose proof fit_size as Hn. pose proof fit_length_in as Hli.
  pose proof fit_length_out as Hlo.
  unfold multiMap. rewrite read_elt by lia. cbn [bind].
  destruct (val <=? elt (_in r) 0) eqn:E0.
  { exists (elt (_out r) 0). split; [apply read_elt; lia |]. left. split; [lia | reflexivity]. }
  rewrite read_elt by lia. cbn [bind].
  destruct (val >=? elt (_in r) (_mapSize r - 1)) eqn:E1.
  { exists (elt (_out r) (_mapSize r - 1)). split; [apply read_elt; lia |].
    right. left. repeat split; lia. }
  destruct (count_below_spec (_in r) val (Z.to_nat (_mapSize r - 1)))
    as (H1 & H2 & H3); [lia | unfold elt in E1; lia |].
  set (i := Z.of_nat (count_below (_in r) val)).
  assert (Hfirst : first_at_least r val i).
  { unfold first_at_least, elt, i. rewrite Nat2Z.id.
    repeat split; [lia | lia | exact H2 |]. intros j Hj. apply H3. lia. }
  destruct Hfirst as (Hi & Hv & Hbelow).
  assert (Hi1 : 1 <= i) by (destruct (Z.eq_dec i 0) as [Hz | ?]; [rewrite Hz in Hv; lia | lia]).
  assert (Hscan : scan fuel r val 1 = Done i).
  { apply scan_first; try lia. intros j Hj. apply Hbelow. lia. }
  assert (Hprev : elt (_in r) (i - 1) < val) by (apply Hbelow; lia).
  rewrite Hscan. cbn [bind]. rewrite read_elt by lia. cbn [bind].
  destruct (val =? elt (_in r) i) eqn:E.
  - exists (elt (_out r) i). split; [apply read_elt; lia |].
    right. right. exists i. repeat split; try lia; try assumption.
  - exists (segment_int r val i). split.
    + unfold interpolate. rewrite !read_elt by lia. cbn [bind].
      replace (elt (_in r) i - elt (_in r) (i - 1) =? 0) with false
        by (symmetry; lia).
      reflexivity.
    + right. right. exists i. repeat split; try lia; try assumption.
Qed.

(** An interpolated value lies between the two output points of its
    segment. *)
Lemma segment_value_between (val i : Z) :
  elt (_in r) (i - 1) < val < elt (_in r) i ->
  (elt (_out r) (i - 1) <= elt (_out r) i ->
   elt (_out r) (i - 1) <= segment_value r val i <= elt (_out r) i)
  /\ (elt (_out r) i <= elt (_out r) (i - 1) ->
      elt (_out r) i <= segment_value r val i <= elt (_out r) (i - 1)).
Proof.
  intro Hv. unfold segment_value.
  destruct (quot_scaled_between (val - elt (_in r) (i - 1))
              (elt (_out r) i - elt (_out r) (i - 1))
              (elt (_in r) i - elt (_in r) (i - 1))) as [Hup Hdown]; [lia | lia |].
  split; intro Ho.
  - assert (H := Hup ltac:(lia)). lia.
  - assert (H := Hdown ltac:(lia)). lia.
Qed.

End AnyTable.

(** On a table on which line 181 cannot overflow, no interpolation
    does, and the [int] value is the exact one. *)
Lemma no_overflow_fits (r : ResponsiveAnalogRead) (val i : Z) :
  no_overflow r -> 1 <= i < _mapSize r ->
  elt (_in r) (i - 1) < val < elt (_in r) i ->
  interpolation_fits r val i.
Proof.
  intros Hno Hi Hv. destruct (Hno i Hi) as (Hd & Hb & Hdb & Hlo & Hhi).
  unfold interpolation_fits.
  destruct (quot_scaled_between (val - elt (_in r) (i - 1))
              (elt (_out r) i - elt (_out r) (i - 1))
              (elt (_in r) i - elt (_in r) (i - 1))) as [Hup Hdown]; [lia | lia |].
  revert Hd Hb Hdb Hlo Hhi Hup Hdown.
  generalize ((val - elt (_in r) (i - 1)) * (elt (_out r) i - elt (_out r) (i - 1))
              ÷ (elt (_in r) i - elt (_in r) (i - 1))).
  unfold fits_int, int_min, int_max. intros q Hd Hb Hdb Hlo Hhi Hup Hdown.
  destruct (Z_le_gt_dec 0 (elt (_out r) i - elt (_out r) (i - 1))) as [Hpos | Hneg].
  - specialize (Hup Hpos). repeat split; nia.
  - specialize (Hdown ltac:(lia)). repeat split; nia.
Qed.

Lemma multiMap_exit_to_exact (r : ResponsiveAnalogRead) (val v : Z) :
  no_overflow r -> multiMap_exit r val v -> multiMap_exit_exact r val v.
Proof.
  intros Hno [H | [H | (i & Hi & Hlast & Hfirst & Hprev & Hcase)]].
  - left. exact H.
  - right. left. exact H.
  - right. right. exists i. repeat split; trivial; try lia; try apply Hfirst.
    destruct Hcase as [Hhit | [Hlt ->]]; [left; exact Hhit | right].
    split; [exact Hlt |]. apply segment_int_exact.
    apply no_overflow_fits; [exact Hno | lia | lia].
Qed.

(** Input points within 2^22 of 0 and output points in [0, 255] leave
    line 181 no room to overflow. *)
Lemma no_overflow_bytes (r : ResponsiveAnalogRead) :
  (forall j : Z, 0 <= j < _mapSize r -> -4194304 <= elt (_in r) j <= 4194304) ->
  (forall j : Z, 0 <= j < _mapSize r -> 0 <= elt (_out r) j <= 255) ->
  no_overflow r.
Proof.
  intros Hin Hout i Hi.
  pose proof (Hin (i - 1) ltac:(lia)). pose proof (Hin i ltac:(lia)).
  pose proof (Hout (i - 1) ltac:(lia)). pose proof (Hout i ltac:(lia)).
  unfold fits_int, int_min, int_max. repeat split; nia.
Qed.

(** Safety without order.  [multiMap] needs no order of the input
    points to be safe: on any table whose two arrays have the stored
    size, from 1 to 255, every call returns a value, by one of its
    three exits, once the fuel covers the size.  With no point at all
    the first read is outside the array. *)
Theorem multiMap_safe_any_order (r : ResponsiveAnalogRead) :
  (table_fits r = true ->
   forall (val : Z) (fuel : nat),
     (Z.to_nat (_mapSize r) <= fuel)%nat ->
     exists v : Z, multiMap fuel r val = Done v /\ multiMap_exit r val v)
  /\ (_in r = [] -> forall (val : Z) (fuel : nat), multiMap fuel r val = Fault).
Proof.
  split.
  - intros Hfit val fuel Hfuel. now apply multiMap_exits.
  - intros Hnil val fuel. unfold multiMap. rewrite Hnil. reflexivity.
Qed.

Lemma multiMap_safe_any_order_witness :
  exists v : Z,
    multiMap 3 (setMap (initial false c0_0) [0; 200; 100] [0; 128; 255] 3) 150 = Done v.
Proof.
  destruct (multiMap_safe_any_order
              (setMap (initial false c0_0) [0; 200; 100] [0; 128; 255] 3)) as [H _].
  destruct (H eq_refl 150 3%nat (le_n 3)) as (v & Hv & _).
  exists v. exact Hv.
Defined.

Lemma multiMap_exit_between (r : ResponsiveAnalogRead) (lo hi val v : Z) :
  table_fits r = true ->
  no_overflow r ->
  (forall j : Z, 0 <= j < _mapSize r -> lo <= elt (_out r) j <= hi) ->
  multiMap_exit r val v ->
  lo <= v <= hi.
Proof.
  intros Hfit Hno Hout Hexit. pose proof (fit_size r Hfit) as Hn.
  apply (multiMap_exit_to_exact r val v Hno) in Hexit.
  destruct Hexit as [[_ ->] | [(_ & _ & ->) | (i & Hi & _ & _ & Hprev & Hcase)]].
  - apply Hout. lia.
  - apply Hout. lia.
  - destruct Hcase as [[_ ->] | [Hlt ->]]; [apply Hout; lia |].
    destruct (segment_value_between r val i) as [Hup Hdown]; [lia |].
    pose proof (Hout (i - 1) ltac:(lia)). pose proof (Hout i ltac:(lia)).
    destruct (Z_le_gt_dec (elt (_out r) (i - 1)) (elt (_out r) i)) as [Hle | Hgt].
    + specialize (Hup Hle). lia.
    + specialize (Hdown ltac:(lia)). lia.
Qed.

(** Where line 181 overflows the two properties below are lost: on the
    table in = 0, 4095, out = 0, 1000000 the value 3000 is mapped below
    every output point and below what 2000 is mapped to. *)
Example wide_table_wraps :
  table_fits wide_table = true
  /\ non_decreasing (_out wide_table) = true
  /\ multiMap 2 wide_table 2000 = Done 488400
  /\ multiMap 2 wide_table 3000 = Done (-316231).
Proof. repeat split. Qed.

(** Outputs stay among the output points.  On a fitting table on
    which line 181 cannot overflow and whose output points all lie
    between [lo] and [hi], every call returns a value between [lo] and
    [hi]: an interpolated value lies between the two output points of
    its segment, whichever of them is larger. *)
Theorem multiMap_within_outputs (r : ResponsiveAnalogRead) (lo hi val : Z) (fuel : nat) :
  table_fits r = true ->
  no_overflow r ->
  (forall j : Z, 0 <= j < _mapSize r -> lo <= elt (_out r) j <= hi) ->
  (Z.to_nat (_mapSize r) <= fuel)%nat ->
  exists v : Z, multiMap fuel r val = Done v /\ lo <= v <= hi.
Proof.
  intros Hfit Hno Hout Hfuel.
  destruct (multiMap_exits r Hfit fuel val Hfuel) as (v & Hv & Hexit).
  exists v. split; [exact Hv |].
  now apply (multiMap_exit_between r lo hi val v).
Qed.

Lemma multiMap_within_outputs_witness :
  exists v : Z, multiMap 3 example_table 137 = Done v /\ 0 <= v <= 255.
Proof.
  apply multiMap_within_outputs.
  - reflexivity.
  - intros i Hi. change (_mapSize example_table) with 3 in Hi.
    assert (Hc : i = 1 \/ i = 2) by lia.
    destruct Hc as [-> | ->]; vm_compute; repeat split; discriminate.
  - intros j Hj. change (_mapSize example_table) with 3 in Hj.
    assert (Hc : j = 0 \/ j = 1 \/ j = 2) by lia.
    destruct Hc as [-> | [-> | ->]]; split; discriminate.
  - exact (le_n 3).
Defined.

(** Monotonicity.  On a fitting table on which line 181 cannot overflow
    and whose output points are non-decreasing, the mapping is
    non-decreasing: a larger value is never mapped below a smaller one,
    truncation included. *)
Theorem multiMap_monotone (r : ResponsiveAnalogRead) (val1 val2 : Z) (fuel : nat) :
  table_fits r = true ->
  no_overflow r ->
  non_decreasing (_out r) = true ->
  (Z.to_nat (_mapSize r) <= fuel)%nat ->
  val1 <= val2 ->
  exists v1 v2 : Z,
    multiMap fuel r val1 = Done v1 /\ multiMap fuel r val2 = Done v2 /\ v1 <= v2.
Proof.
  intros Hfit Hno Hmono Hfuel Hval.
  pose proof (fit_size r Hfit) as Hn. pose proof (fit_length_out r Hfit) as Hlo.
  assert (Hout : forall i j : Z, 0 <= i <= j -> j < _mapSize r ->
                                 elt (_out r) i <= elt (_out r) j).
  { intros i j Hij Hj. apply non_decreasing_elt; [exact Hmono | lia | lia]. }
  (* the least and the greatest that an exit can return *)
  assert (Hrange : forall val v : Z, multiMap_exit_exact r val v ->
            elt (_out r) 0 <= v <= elt (_out r) (_mapSize r - 1)).
  { intros val v [[_ ->] | [(_ & _ & ->) | (i & Hi & _ & _ & Hprev & Hcase)]].
    - split; [lia | apply Hout; lia].
    - split; [apply Hout; lia | lia].
    - pose proof (Hout 0 (i - 1) ltac:(lia) ltac:(lia)).
      pose proof (Hout (i - 1) i ltac:(lia) ltac:(lia)) as Hstep.
      pose proof (Hout i (_mapSize r - 1) ltac:(lia) ltac:(lia)).
      destruct Hcase as [[_ ->] | [Hlt ->]]; [lia |].
      destruct (segment_value_between r val i) as [Hup _]; [lia |].
      specialize (Hup Hstep). lia. }
  destruct (multiMap_exits r Hfit fuel val1 Hfuel) as (v1 & Hv1 & He1).
  destruct (multiMap_exits r Hfit fuel val2 Hfuel) as (v2 & Hv2 & He2).
  exists v1, v2. split; [exact Hv1 | split; [exact Hv2 |]].
  apply (multiMap_exit_to_exact r val1 v1 Hno) in He1.
  apply (multiMap_exit_to_exact r val2 v2 Hno) in He2.
  pose proof (Hrange _ _ He1) as Hr1. pose proof (Hrange _ _ He2) as Hr2.
  destruct He1 as [[_ ->] | [(Ha1 & Hb1 & ->) | (i1 & Hi1 & Hlast1 & Hf1 & Hp1 & Hc1)]];
    [lia | |].
  { destruct He2 as [[Ha2 _] | [(_ & _ & ->) | (i2 & _ & Hlast2 & _)]]; lia. }
  destruct He2 as [[Ha2 _] | [(_ & _ & ->) | (i2 & Hi2 & Hlast2 & Hf2 & Hp2 & Hc2)]].
  - destruct Hf1 as (_ & _ & Hbelow1). pose proof (Hbelow1 0 ltac:(lia)). lia.
  - lia.
  - destruct Hf1 as (_ & Hle1 & Hbelow1). destruct Hf2 as (_ & Hle2 & Hbelow2).
    assert (Hii : i1 <= i2).
    { destruct (Z_le_gt_dec i1 i2) as [? | Hgt]; [assumption |].
      pose proof (Hbelow1 i2 ltac:(lia)). lia. }
    pose proof (Hout (i1 - 1) i1 ltac:(lia) ltac:(lia)) as Hs1.
    pose proof (Hout (i2 - 1) i2 ltac:(lia) ltac:(lia)) as Hs2.
    assert (Hv1hi : v1 <= elt (_out r) i1).
    { destruct Hc1 as [[_ ->] | [Hlt ->]]; [lia |].
      destruct (segment_value_between r val1 i1) as [Hup _]; [lia |].
      specialize (Hup Hs1). lia. }
    assert (Hv2lo : elt (_out r) (i2 - 1) <= v2).
    { destruct Hc2 as [[_ ->] | [Hlt ->]]; [lia |].
      destruct (segment_value_between r val2 i2) as [Hup _]; [lia |].
      specialize (Hup Hs2). lia. }
    destruct (Z.eq_dec i1 i2) as [Heq | Hne].
    + subst i2. destruct Hc2 as [[_ ->] | [Hlt2 ->]]; [exact Hv1hi |].
      destruct Hc1 as [[Hhit _] | [Hlt1 ->]]; [lia |].
      unfold segment_value. apply Z.add_le_mono_l.
      apply Z.quot_le_mono; [lia |]. apply Z.mul_le_mono_nonneg_r; lia.
    + pose proof (Hout i1 (i2 - 1) ltac:(lia) ltac:(lia)). lia.
Qed.

Lemma multiMap_monotone_witness :
  exists v1 v2 : Z,
    multiMap 3 example_table 149 = Done v1
    /\ multiMap 3 example_table 151 = Done v2 /\ v1 <= v2.
Proof.
  apply multiMap_monotone.
  - reflexivity.
  - intros i Hi. change (_mapSize example_table) with 3 in Hi.
    assert (Hc : i = 1 \/ i = 2) by lia.
    destruct Hc as [-> | ->]; vm_compute; repeat split; discriminate.
  - reflexivity.
  - exact (le_n 3).
  - discriminate.
Defined.

(** * The configuration and the pin-driven entry points *)

(** [setSnapMultiplier] projects onto [0, 1].  A multiplier above 1 is
    stored as 1, one below 0 as 0, one in between as it is; setting the
    stored value again changes nothing; the filter state and the table
    are not touched. *)
Theorem setSnapMultiplier_projects (r : ResponsiveAnalogRead) (m : float) :
  ((c1_0 < m)%F -> snapMultiplier (setSnapMultiplier r m) = c1_0)
  /\ ((m < c0_0)%F -> snapMultiplier (setSnapMultiplier r m) = c0_0)
  /\ ((c0_0 <= m <= c1_0)%F -> snapMultiplier (setSnapMultiplier r m) = m)
  /\ setSnapMultiplier (setSnapMultiplier r m) (snapMultiplier (setSnapMultiplier r m))
     = setSnapMultiplier r m
  /\ smoothValue (setSnapMultiplier r m) = smoothValue r
  /\ errorEMA (setSnapMultiplier r m) = errorEMA r
  /\ responsiveValue (setSnapMultiplier r m) = responsiveValue r
  /\ _in (setSnapMultiplier r m) = _in r
  /\ _out (setSnapMultiplier r m) = _out r
  /\ _mapSize (setSnapMultiplier r m) = _mapSize r
  /\ _map (setSnapMultiplier r m) = _map r
  /\ sleeping (setSnapMultiplier r m) = sleeping r
  /\ rawValue (setSnapMultiplier r m) = rawValue r
  /\ prevResponsiveValue (setSnapMultiplier r m) = prevResponsiveValue r
  /\ responsiveValueHasChanged (setSnapMultiplier r m) = responsiveValueHasChanged r
  /\ sleepEnable (setSnapMultiplier r m) = sleepEnable r
  /\ edgeSnapEnable (setSnapMultiplier r m) = edgeSnapEnable r
  /\ activityThreshold (setSnapMultiplier r m) = activityThreshold r
  /\ analogResolution (setSnapMultiplier r m) = analogResolution r.
Proof.
  assert (Hfix : forall k : float, (c0_0 <= k <= c1_0)%F ->
                   forall r' : ResponsiveAnalogRead,
                     setSnapMultiplier r' k = set_snapMultiplier r' k).
  { intros k [H0 H1] r'. unfold setSnapMultiplier, gtb.
    apply ltb_ge in H0. apply ltb_ge in H1. rewrite H1, H0. reflexivity. }
  split; [| split; [| split; [| split; [| repeat split]]]].
  - intro H. unfold setSnapMultiplier, gtb. apply ltb_lt in H. rewrite H. reflexivity.
  - intro H. unfold setSnapMultiplier, gtb.
    assert (H1 : (c1_0 <? m)%F = false).
    { apply ltb_ge. apply Qclt_le_weak. apply Qclt_trans with c0_0; [exact H | reflexivity]. }
    apply ltb_lt in H. rewrite H1, H. reflexivity.
  - intro H. rewrite (Hfix m H). reflexivity.
  - rewrite (Hfix _ (setSnapMultiplier_range r m)). reflexivity.
Qed.

Lemma setSnapMultiplier_projects_witness :
  snapMultiplier (setSnapMultiplier (initial false c0_0) (of_int 5)) = c1_0
  /\ snapMultiplier (setSnapMultiplier (initial false c0_0) (of_int (-1))) = c0_0.
Proof.
  destruct (setSnapMultiplier_projects (initial false c0_0) (of_int 5)) as (H1 & _).
  destruct (setSnapMultiplier_projects (initial false c0_0) (of_int (-1))) as (_ & H2 & _).
  split; [apply H1 | apply H2]; vm_compute; reflexivity.
Defined.

Lemma edgeSnap_off (r : ResponsiveAnalogRead) (x : Z) :
  sleepEnable r && edgeSnapEnable r = false -> edgeSnap r x = x.
Proof. unfold edgeSnap. intros ->. reflexivity. Qed.

Lemma table_fits_update (r : ResponsiveAnalogRead) (x : Z) :
  table_fits (update r x) = table_fits r.
Proof.
  unfold table_fits.
  destruct (update_bookkeeping r x) as (_ & _ & _ & -> & -> & -> & _).
  reflexivity.
Qed.

Lemma no_overflow_update (r : ResponsiveAnalogRead) (x : Z) :
  no_overflow r -> no_overflow (update r x).
Proof.
  unfold no_overflow.
  destruct (update_bookkeeping r x) as (_ & _ & _ & -> & -> & -> & _).
  trivial.
Qed.

Lemma updateFromPin_confined (map : Z -> Z -> Z -> Z -> Z -> Z) (fuel : nat)
    (a b : Z) (d : Board) (reading : Z) :
  board_confined a b d ->
  (Z.to_nat (_mapSize (core d)) <= fuel)%nat ->
  exists d' : Board,
    updateFromPin map fuel d reading = Done d'
    /\ board_confined a b d'
    /\ _mapSize (core d') = _mapSize (core d)
    /\ a <= rawValue (core d') <= b
    /\ a <= responsiveValue (core d') <= b.
Proof.
  intros (Hbyte & Hmap & Hfit & Hno & Hout & Hedge & Hm & Hinv & Hs) Hfuel.
  destruct (multiMap_exits (core d) Hfit fuel reading Hfuel) as (v & Hv & Hexit).
  pose proof (multiMap_exit_between (core d) a b reading v Hfit Hno Hout Hexit) as Hvab.
  unfold updateFromPin, doMapping. rewrite Hbyte, Hmap, Hv. cbn [bind].
  change (rawValue (set_rawValue (core d) v)) with v.
  change (update (set_rawValue (core d) v) v) with (update (core d) v).
  exists (set_core d (update (core d) v)). split; [reflexivity |].
  cbn [core set_core _useByte].
  assert (Hres : 1 <= analogResolution (core d)).
  { destruct Hinv as [H0 H1]. pose proof (Qcle_trans _ _ _ H0 H1) as H.
    unfold Qcle in H. rewrite this_of_int in H.
    change (this c0_0) with (inject_Z 0) in H. rewrite <- Zle_Qle in H. lia. }
  pose proof (update_smooth_in_range (core d) v Hres Hinv) as Hinv'.
  assert (Hs' : (of_int a <= smoothValue (update (core d) v) <= of_int b)%F).
  { apply update_between; trivial.
    rewrite (edgeSnap_off _ _ Hedge). split; apply of_int_le; lia. }
  destruct (update_config (core d) v) as (Hc1 & Hc2 & _ & _ & Hc5).
  destruct (update_bookkeeping (core d) v) as (Hraw & _ & _ & Hi & Ho & Hsz & Hmp).
  split; [| split; [exact Hsz | split; [rewrite Hraw; lia |]]].
  - unfold board_confined. cbn [core set_core _useByte].
    rewrite Hmp, table_fits_update, Ho, Hsz, Hc1, Hc2, Hc5.
    split; [exact Hbyte | split; [exact Hmap | split; [exact Hfit |]]].
    split; [now apply no_overflow_update |].
    split; [exact Hout | split; [exact Hedge | split; [exact Hm |]]].
    split; [exact Hinv' | exact Hs'].
  - rewrite update_output. apply to_int_between; [apply Hinv' | exact Hs'].
Qed.

Lemma runFromPin_confined (map : Z -> Z -> Z -> Z -> Z -> Z) (fuel : nat)
    (a b : Z) (readings : list Z) : forall d : Board,
  board_confined a b d ->
  (Z.to_nat (_mapSize (core d)) <= fuel)%nat ->
  exists (outs : list Z) (d' : Board),
    runFromPin map fuel d readings = Done (outs, d')
    /\ length outs = length readings
    /\ Forall (fun o => a <= o <= b) outs.
Proof.
  induction readings as [| x rest IH]; intros d Hd Hfuel.
  - exists [], d. repeat split. constructor.
  - destruct (updateFromPin_confined map fuel a b d x Hd Hfuel)
      as (d1 & H1 & Hd1 & Hsz & _ & Hout).
    destruct (IH d1 Hd1) as (outs & d' & Hrun & Hlen & Hall); [now rewrite Hsz |].
    exists (responsiveValue (core d1) :: outs), d'.
    cbn [runFromPin]. rewrite H1. cbn [bind]. rewrite Hrun. cbn [bind fst snd].
    repeat split; [cbn; now rewrite Hlen | now constructor].
Qed.

(** Byte mode end to end.  After [begin] (with sleep off, or edge snap
    off) on an object that holds a fitting table on which line 181
    cannot overflow, with output points between [a] and [b], and whose [smoothValue] lies between [a] and
    [b] inside [0, analogResolution - 1], every [update()] succeeds
    whatever the pin reads and whatever multiplier was asked for, and
    every output lies between [a] and [b]: [begin] switches byte mode
    on, clamps the multiplier and resets neither the filter state nor
    the table. *)
Theorem begin_then_updates_confined (map : Z -> Z -> Z -> Z -> Z -> Z)
    (d0 : Board) (pin_ : Z) (sleep : bool) (m : float) (a b : Z)
    (readings : list Z) (fuel : nat) :
  _map (core d0) = true ->
  table_fits (core d0) = true ->
  no_overflow (core d0) ->
  (forall j : Z, 0 <= j < _mapSize (core d0) -> a <= elt (_out (core d0)) j <= b) ->
  sleep && edgeSnapEnable (core d0) = false ->
  smooth_in_range (core d0) ->
  (of_int a <= smoothValue (core d0) <= of_int b)%F ->
  (Z.to_nat (_mapSize (core d0)) <= fuel)%nat ->
  exists (outs : list Z) (d' : Board),
    runFromPin map fuel (begin d0 pin_ sleep m) readings = Done (outs, d')
    /\ length outs = length readings
    /\ Forall (fun o => a <= o <= b) outs.
Proof.
  intros Hmap Hfit Hno Hout Hedge Hinv Hs Hfuel.
  apply runFromPin_confined; [| exact Hfuel].
  unfold board_confined, begin. cbn [core _useByte].
  split; [reflexivity | split; [exact Hmap | split; [exact Hfit |]]].
  split; [exact Hno |].
  split; [exact Hout | split; [exact Hedge | split; [| split; [exact Hinv | exact Hs]]]].
  apply (setSnapMultiplier_range (set_sleepEnable (core d0) sleep) m).
Qed.

Lemma begin_then_updates_confined_witness :
  exists (outs : list Z) (d' : Board),
    runFromPin (fun x _ _ _ _ => x) 3
      (begin (mkBoard example_table 0 0 0 0 0 false) 34 false (of_int 7))
      [0; 150; 1023; 37] = Done (outs, d')
    /\ length outs = 4%nat
    /\ Forall (fun o => 0 <= o <= 255) outs.
Proof.
  apply (begin_then_updates_confined (fun x _ _ _ _ => x)
           (mkBoard example_table 0 0 0 0 0 false) 34 false (of_int 7) 0 255
           [0; 150; 1023; 37] 3%nat).
  - reflexivity.
  - reflexivity.
  - intros i Hi. change (_mapSize (core (mkBoard example_table 0 0 0 0 0 false))) with 3 in Hi.
    assert (Hc : i = 1 \/ i = 2) by lia.
    destruct Hc as [-> | ->]; vm_compute; repeat split; discriminate.
  - intros j Hj. change (_mapSize (core (mkBoard example_table 0 0 0 0 0 false))) with 3 in Hj.
    assert (Hc : j = 0 \/ j = 1 \/ j = 2) by lia.
    destruct Hc as [-> | [-> | ->]]; split; discriminate.
  - reflexivity.
  - split; vm_compute; discriminate.
  - split; vm_compute; discriminate.
  - exact (le_n 3).
Defined.

(** * Calibration *)

Lemma length_store (a : list Z) (n : nat) (v : Z) : length (store a n v) = length a.
Proof.
  revert n. induction a as [| x rest IH]; intros [| n]; cbn; try reflexivity.
  now rewrite IH.
Qed.

Lemma firstn_store_at (a : list Z) (n : nat) (v : Z) :
  (n < length a)%nat -> firstn (S n) (store a n v) = firstn n a ++ [v].
Proof.
  revert n. induction a as [| x rest IH]; intros [| n] Hn; cbn in Hn; try lia.
  - reflexivity.
  - cbn [store]. rewrite !firstn_cons. cbn [app]. f_equal. apply IH. lia.
Qed.

Lemma firstn_store_beyond (a : list Z) (n k : nat) (v : Z) :
  (k <= n)%nat -> firstn k (store a n v) = firstn k a.
Proof.
  revert n k. induction a as [| x rest IH]; intros [| n] [| k] Hk; cbn; try reflexivity; try lia.
  f_equal. apply IH. lia.
Qed.

Lemma write_done (a : list Z) (i v : Z) :
  0 <= i < Z.of_nat (length a) -> write a i v = Done (store a (Z.to_nat i) v).
Proof.
  intro Hi. unfold write.
  destruct (i <? 0) eqn:E0; [lia |].
  destruct (Z.of_nat (length a) <=? i) eqn:E1; [lia | reflexivity].
Qed.

Lemma write_fault (a : list Z) (i v : Z) :
  Z.of_nat (length a) <= i -> write a i v = Fault.
Proof.
  intro Hi. unfold write.
  destruct (i <? 0); [reflexivity |].
  destruct (Z.of_nat (length a) <=? i) eqn:E1; [reflexivity | lia].
Qed.

Lemma write_inv (a b : list Z) (i v : Z) :
  write a i v = Done b -> 0 <= i < Z.of_nat (length a) /\ length b = length a.
Proof.
  unfold write. destruct (i <? 0) eqn:E0; [discriminate |].
  destruct (Z.of_nat (length a) <=? i) eqn:E1; [discriminate |].
  intro H. injection H as <-. rewrite length_store. lia.
Qed.

Lemma readEach_firstn (a : list Z) (n : nat) :
  (n <= length a)%nat ->
  readEach a (map Z.of_nat (seq 0 n)) = Done (firstn n a).
Proof.
  intro Hn.
  assert (H : forall (k : nat) (l : list Z),
             (k + n <= length l + k)%nat -> (n <= length (skipn k l))%nat ->
             readEach l (map Z.of_nat (seq k n)) = Done (firstn n (skipn k l))).
  { clear. induction n as [| n IH]; intros k l Hk Hs; [reflexivity |].
    cbn [seq map readEach].
    destruct (skipn k l) as [| x rest] eqn:E; [cbn in Hs; lia |].
    assert (Hx : nth_error l k = Some x).
    { rewrite <- (firstn_skipn k l) at 1. rewrite E.
      assert (Hlen : length (firstn k l) = k).
      { apply firstn_length_le.
        assert (length (skipn k l) = (length l - k)%nat) by apply length_skipn.
        rewrite E in H. cbn in H. lia. }
      rewrite nth_error_app2 by lia. rewrite Hlen, Nat.sub_diag. reflexivity. }
    unfold read. destruct (Z.of_nat k <? 0) eqn:E0; [lia |].
    rewrite Nat2Z.id, Hx. cbn [bind].
    assert (Hrest : skipn (S k) l = rest).
    { change (S k) with (1 + k)%nat. rewrite <- skipn_skipn, E. reflexivity. }
    rewrite IH; [| lia | rewrite Hrest; cbn in Hs; lia].
    cbn [bind]. rewrite Hrest. reflexivity. }
  apply (H 0%nat a); [lia | exact Hn].
Qed.

Lemma waitForMovement_skips (zeros : list Z) (x : Z) (rest : list Z) :
  Forall (eq 0) zeros -> x <> 0 ->
  waitForMovement (zeros ++ x :: rest) = Done rest.
Proof.
  intros Hz Hx. induction Hz as [| z zeros <- _ IH]; cbn.
  - destruct (x =? 0) eqn:E; [lia | reflexivity].
  - exact IH.
Qed.

Lemma sweep_stops (readings : list Z) (max : Z) (buf : list Z) (pos s : Z) :
  max <= s -> sweep readings max buf pos s = Done (Some (buf, pos)).
Proof.
  intro H. destruct readings; cbn; destruct (s <? max) eqn:E; try lia; reflexivity.
Qed.

Lemma sweep_step (x : Z) (rest : list Z) (max : Z) (buf : list Z) (pos s : Z) :
  s < max ->
  sweep (x :: rest) max buf pos s =
    (buf' <- write buf pos x ;;
     if pos >? 255 then Done None else sweep rest max buf' (pos + 1) x).
Proof.
  intro H. cbn [sweep]. destruct (s <? max) eqn:E; [reflexivity | lia].
Qed.

(** The early return is never reached: the write of line 240 comes
    before the test of line 241 and has failed by then. *)
Lemma sweep_never_too_slow (readings : list Z) (max : Z) :
  forall (buf : list Z) (pos s : Z),
    (length buf <= 256)%nat -> sweep readings max buf pos s <> Done None.
Proof.
  induction readings as [| x rest IH]; intros buf pos s Hlen.
  - cbn. destruct (s <? max); discriminate.
  - destruct (Z_lt_ge_dec s max) as [Hlt | Hge].
    + rewrite (sweep_step _ _ _ _ _ _ Hlt).
      destruct (write buf pos x) as [buf' | |] eqn:Hw; cbn [bind]; try discriminate.
      apply write_inv in Hw. destruct Hw as [Hpos Hlen'].
      destruct (pos >? 255) eqn:E; [lia |].
      apply IH. lia.
    + rewrite sweep_stops by lia. discriminate.
Qed.

(** Readings below [max] are recorded one after the other. *)
Lemma sweep_records (slow : list Z) (max x : Z) (more : list Z) :
  Forall (fun y => y < max) slow -> max <= x ->
  forall (buf : list Z) (pos s : Z),
    s < max -> 1 <= pos -> length buf = 255%nat ->
    pos + Z.of_nat (length slow) < 255 ->
    exists buf' : list Z,
      sweep (slow ++ x :: more) max buf pos s
        = Done (Some (buf', pos + Z.of_nat (length slow) + 1))
      /\ length buf' = 255%nat
      /\ firstn (Z.to_nat (pos + Z.of_nat (length slow) + 1)) buf'
         = firstn (Z.to_nat pos) buf ++ slow ++ [x].
Proof.
  intros Hslow Hx. induction Hslow as [| y slow Hy _ IH]; intros buf pos s Hs Hpos Hlen Hroom.
  - cbn [app length] in *. rewrite (sweep_step _ _ _ _ _ _ Hs).
    rewrite write_done by lia. cbn [bind].
    destruct (pos >? 255) eqn:E; [lia |].
    rewrite sweep_stops by lia.
    exists (store buf (Z.to_nat pos) x). split; [do 3 f_equal; lia | split].
    + now rewrite length_store.
    + replace (Z.to_nat (pos + Z.of_nat 0 + 1)) with (S (Z.to_nat pos)) by lia.
      apply firstn_store_at. lia.
  - cbn [app length] in *. rewrite (sweep_step _ _ _ _ _ _ Hs).
    rewrite write_done by lia. cbn [bind].
    destruct (pos >? 255) eqn:E; [lia |].
    destruct (IH (store buf (Z.to_nat pos) y) (pos + 1) y) as (buf' & Hrun & Hlen' & Hfirst);
      [exact Hy | lia | now rewrite length_store | lia |].
    exists buf'. split; [| split; [exact Hlen' |]].
    + rewrite Hrun. do 3 f_equal. lia.
    + replace (pos + Z.of_nat (S (length slow)) + 1)
        with (pos + 1 + Z.of_nat (length slow) + 1) by lia.
      rewrite Hfirst.
      replace (Z.to_nat (pos + 1)) with (S (Z.to_nat pos)) by lia.
      rewrite firstn_store_at by lia. rewrite <- app_assoc. reflexivity.
Qed.

(** Once the buffer is full the next reading is written past its end. *)
Lemma sweep_overruns (slow : list Z) (max x : Z) (more : list Z) :
  Forall (fun y => y < max) slow ->
  forall (buf : list Z) (pos s : Z),
    s < max -> 1 <= pos -> length buf = 255%nat ->
    pos + Z.of_nat (length slow) = 255 ->
    sweep (slow ++ x :: more) max buf pos s = Fault.
Proof.
  intros Hslow. induction Hslow as [| y slow Hy _ IH]; intros buf pos s Hs Hpos Hlen Hroom.
  - cbn [app length] in *. rewrite (sweep_step _ _ _ _ _ _ Hs).
    rewrite write_fault by lia. reflexivity.
  - cbn [app length] in *. rewrite (sweep_step _ _ _ _ _ _ Hs).
    rewrite write_done by lia. cbn [bind].
    destruct (pos >? 255) eqn:E; [lia |].
    apply IH; [exact Hy | lia | now rewrite length_store | lia].
Qed.

(** The guard against a slow movement is dead, and a slow movement
    overruns the buffer.  [calibrate] never leaves by its early return;
    when, after the pin has moved off 0, the first 254 readings stay
    below a positive maximum, the next reading is written outside the
    255 entries of [buf], whatever it is. *)
Theorem calibrate_overruns (junk : list Z) :
  length junk = 255%nat ->
  (forall readings : list Z, calibrate junk readings <> Done TooSlow)
  /\ (forall (min max : Z) (zeros : list Z) (moved : Z) (slow : list Z)
             (x : Z) (more : list Z),
        Forall (eq 0) zeros -> moved <> 0 -> 0 < max ->
        Forall (fun y => y < max) slow -> length slow = 254%nat ->
        calibrate junk (min :: max :: zeros ++ moved :: slow ++ x :: more) = Fault).
Proof.
  intro Hjunk. split.
  - intros [| min [| max rest]]; cbn [calibrate]; try discriminate.
    destruct (waitForMovement rest) as [rest' | |]; cbn [bind]; try discriminate.
    destruct (write junk 0 min) as [buf | |] eqn:Hw; cbn [bind]; try discriminate.
    apply write_inv in Hw. destruct Hw as [_ Hlen].
    pose proof (sweep_never_too_slow rest' max buf 1 0 ltac:(lia)) as Hnever.
    destruct (sweep rest' max buf 1 0) as [[[buf' pos] |] | |]; cbn [bind];
      try discriminate; [| contradiction].
    destruct (readEach buf' (indices pos)); cbn [bind]; try discriminate.
    destruct (pos + 1 =? 0); discriminate.
  - intros min max zeros moved slow x more Hz Hm Hmax Hslow Hlen.
    cbn [calibrate]. rewrite (waitForMovement_skips _ _ _ Hz Hm). cbn [bind].
    rewrite write_done by lia. cbn [bind].
    rewrite sweep_overruns; trivial; try lia. now rewrite length_store.
Qed.

Lemma calibrate_overruns_witness :
  calibrate (repeat 0 255) (12 :: 1000 :: [0; 0] ++ 5 :: repeat 10 254 ++ 2000 :: [])
  = Fault.
Proof.
  destruct (calibrate_overruns (repeat 0 255) eq_refl) as [_ H].
  apply H.
  - repeat constructor.
  - discriminate.
  - reflexivity.
  - apply Forall_forall. intros y Hy. apply repeat_spec in Hy. subst y. reflexivity.
  - apply repeat_length.
Defined.

Lemma sweep_keeps_room (readings : list Z) (max : Z) :
  forall (buf : list Z) (pos s : Z) (buf' : list Z) (pos' : Z),
    length buf = 255%nat -> 1 <= pos <= 255 ->
    sweep readings max buf pos s = Done (Some (buf', pos')) ->
    length buf' = 255%nat /\ pos <= pos' <= 255.
Proof.
  induction readings as [| x rest IH]; intros buf pos s buf' pos' Hlen Hpos Hrun.
  - cbn in Hrun. destruct (s <? max); [discriminate |].
    injection Hrun as <- <-. split; [exact Hlen | lia].
  - destruct (Z_lt_ge_dec s max) as [Hlt | Hge].
    + rewrite (sweep_step _ _ _ _ _ _ Hlt) in Hrun.
      destruct (write buf pos x) as [buf1 | |] eqn:Hw; cbn [bind] in Hrun;
        try discriminate.
      apply write_inv in Hw. destruct Hw as [Hp Hlen1].
      destruct (pos >? 255) eqn:E; [discriminate |].
      destruct (IH buf1 (pos + 1) x buf' pos') as [Hl Hpp]; trivial; lia.
    + rewrite sweep_stops in Hrun by lia. injection Hrun as <- <-.
      split; [exact Hlen | lia].
Qed.

Lemma length_indices (n : Z) : length (indices n) = Z.to_nat n.
Proof. unfold indices. now rewrite length_map, length_seq. Qed.

Lemma in_indices (n i : Z) : In i (indices n) -> 0 <= i < n.
Proof.
  unfold indices. intro H. apply in_map_iff in H. destruct H as (k & <- & Hk).
  apply in_seq in Hk. lia.
Qed.

(** The printed output points [0, add, 2*add, ..., 255]. *)
Lemma steps_bounded (n : Z) :
  1 <= n ->
  Forall (fun o => 0 <= o <= 255) (map (fun i => i * (255 ÷ (n + 1))) (indices n) ++ [255]).
Proof.
  intro Hn. apply Forall_app. split; [| repeat constructor; lia].
  apply Forall_forall. intros o Ho. apply in_map_iff in Ho.
  destruct Ho as (i & <- & Hi). apply in_indices in Hi.
  rewrite Z.quot_div_nonneg by lia.
  assert (0 <= 255 / (n + 1)) by (apply Z.div_pos; lia).
  assert ((n + 1) * (255 / (n + 1)) <= 255) by (apply Z.mul_div_le; lia).
  nia.
Qed.

Lemma non_decreasing_steps (add : Z) (k m : nat) :
  0 <= add -> Z.of_nat (k + m) * add <= 255 ->
  non_decreasing (map (fun i => i * add) (map Z.of_nat (seq k m)) ++ [255]) = true.
Proof.
  intro Hadd. revert k. induction m as [| m IH]; intros k Hk; [reflexivity |].
  cbn [seq map app]. destruct m as [| m].
  - cbn. rewrite andb_true_r. apply Z.leb_le. nia.
  - cbn [seq map app non_decreasing] in *. apply andb_true_iff. split.
    + apply Z.leb_le. nia.
    + apply IH. replace (S k + S m)%nat with (k + S (S m))%nat by lia. exact Hk.
Qed.

Lemma steps_non_decreasing (n : Z) :
  1 <= n ->
  non_decreasing (map (fun i => i * (255 ÷ (n + 1))) (indices n) ++ [255]) = true.
Proof.
  intro Hn. unfold indices. apply non_decreasing_steps.
  - rewrite Z.quot_div_nonneg by lia. apply Z.div_pos; lia.
  - rewrite Z.quot_div_nonneg by lia.
    assert (0 <= 255 / (n + 1)) by (apply Z.div_pos; lia).
    assert ((n + 1) * (255 / (n + 1)) <= 255) by (apply Z.mul_div_le; lia).
    nia.
Qed.

Lemma strictly_increasing_tail (l : list Z) (x max : Z) :
  max <= x -> strictly_increasing (l ++ [x; max]) = false.
Proof.
  intro H. induction l as [| a [| b rest] IH].
  - cbn. rewrite andb_true_r. apply Z.ltb_ge. exact H.
  - cbn [app strictly_increasing] in *. rewrite IH. apply andb_false_r.
  - cbn [app strictly_increasing] in *. rewrite IH. apply andb_false_r.
Qed.

(** What a calibration yields.  When [calibrate] prints a table, its
    two arrays have the printed size, which is from 2 to 256; the
    output points are non-decreasing and lie in [0, 255]; and if the
    size fits the [uint8_t] of [setMap] and the input points lie within
    2^22 of 0, as the readings of a converter of up to 22 bits do, then
    after [setMap] with the table every [multiMap] returns a value in
    [0, 255]. *)
Theorem calibrate_table_usable (junk readings : list Z) (in_ out : list Z) (size : Z) :
  length junk = 255%nat ->
  calibrate junk readings = Done (Table in_ out size) ->
  Z.of_nat (length in_) = size
  /\ Z.of_nat (length out) = size
  /\ 2 <= size <= 256
  /\ Forall (fun o => 0 <= o <= 255) out
  /\ non_decreasing out = true
  /\ (size <= 255 ->
      Forall (fun x => -4194304 <= x <= 4194304) in_ ->
      forall (r : ResponsiveAnalogRead) (val : Z) (fuel : nat),
        (Z.to_nat size <= fuel)%nat ->
        exists v : Z,
          multiMap fuel (setMap r in_ out size) val = Done v /\ 0 <= v <= 255).
Proof.
  intros Hjunk Hcal.
  destruct readings as [| min [| max rest]]; cbn [calibrate] in Hcal; try discriminate.
  destruct (waitForMovement rest) as [rest' | |]; cbn [bind] in Hcal; try discriminate.
  destruct (write junk 0 min) as [buf | |] eqn:Hw; cbn [bind] in Hcal; try discriminate.
  apply write_inv in Hw. destruct Hw as [_ Hlen].
  destruct (sweep rest' max buf 1 0) as [[[buf' pos] |] | |] eqn:Hsw;
    cbn [bind] in Hcal; try discriminate.
  assert (Hbuf : length buf = 255%nat) by lia.
  assert (Hone : 1 <= 1 <= 255) by lia.
  destruct (sweep_keeps_room rest' max buf 1 0 buf' pos Hbuf Hone Hsw) as [Hlen' Hpos].
  unfold indices in Hcal at 1. rewrite readEach_firstn in Hcal by lia.
  cbn [bind] in Hcal. destruct (pos + 1 =? 0) eqn:E; [discriminate |].
  injection Hcal as <- <- <-.
  assert (Hin : Z.of_nat (length (firstn (Z.to_nat pos) buf' ++ [max])) = pos + 1).
  { rewrite length_app, firstn_length_le by lia. cbn. lia. }
  assert (Hout : Z.of_nat (length (map (fun i => i * (255 ÷ (pos + 1))) (indices pos) ++ [255]))
                 = pos + 1).
  { rewrite length_app, length_map, length_indices. cbn. lia. }
  assert (Hb : Forall (fun o => 0 <= o <= 255)
                 (map (fun i => i * (255 ÷ (pos + 1))) (indices pos) ++ [255]))
    by (apply steps_bounded; lia).
  split; [exact Hin | split; [exact Hout | split; [lia | split; [exact Hb | split]]]].
  - apply steps_non_decreasing. lia.
  - intros Hsize Hadc r val fuel Hfuel.
    set (t := setMap r (firstn (Z.to_nat pos) buf' ++ [max])
                (map (fun i => i * (255 ÷ (pos + 1))) (indices pos) ++ [255]) (pos + 1)).
    assert (Hfit : table_fits t = true).
    { unfold table_fits, t, setMap. cbn [_mapSize _in _out set_table].
      rewrite Hin, Hout, Z.eqb_refl.
      replace (1 <=? pos + 1) with true by (symmetry; apply Z.leb_le; lia).
      replace (pos + 1 <? 256) with true by (symmetry; apply Z.ltb_lt; lia).
      reflexivity. }
    assert (Hbytes : forall j : Z, 0 <= j < _mapSize t -> 0 <= elt (_out t) j <= 255).
    { intros j Hj. unfold t in *. cbn [_mapSize _out setMap set_table] in *.
      rewrite Forall_forall in Hb. apply Hb. unfold elt. apply nth_In. lia. }
    assert (Hno : no_overflow t).
    { apply no_overflow_bytes; [| exact Hbytes].
      intros j Hj. unfold t in *. cbn [_mapSize _in setMap set_table] in *.
      rewrite Forall_forall in Hadc. apply Hadc. unfold elt. apply nth_In. lia. }
    destruct (multiMap_exits t Hfit fuel val) as (v & Hv & Hexit); [exact Hfuel |].
    exists v. split; [exact Hv |].
    exact (multiMap_exit_between t 0 255 val v Hfit Hno Hbytes Hexit).
Qed.

Lemma calibrate_table_usable_witness :
  exists v : Z,
    multiMap 6 (setMap (initial false c0_0) [3; 10; 400; 800; 1001; 1000]
                  [0; 42; 84; 126; 168; 255] 6) 500 = Done v
    /\ 0 <= v <= 255.
Proof.
  destruct (calibrate_table_usable (repeat 7 255)
              [3; 1000; 0; 0; 5; 10; 400; 800; 1001; 99]
              [3; 10; 400; 800; 1001; 1000] [0; 42; 84; 126; 168; 255] 6)
    as (_ & _ & _ & _ & _ & H).
  - reflexivity.
  - vm_compute. reflexivity.
  - apply H; [discriminate | | exact (le_n 6)].
    repeat constructor; discriminate.
Defined.

(** What a calibration records.  When, after the pin has moved off 0,
    at most 253 readings stay below a positive maximum and the next one
    reaches it, [calibrate] prints as input points the minimum, those
    readings, the reading that reached the maximum and the maximum
    itself, whatever the buffer held before.  The last two input points
    are then never in strictly increasing order. *)
Theorem calibrate_records (junk : list Z) (min max : Z) (zeros : list Z)
    (moved : Z) (slow : list Z) (x : Z) (more : list Z) :
  length junk = 255%nat ->
  Forall (eq 0) zeros -> moved <> 0 -> 0 < max ->
  Forall (fun y => y < max) slow -> (length slow <= 253)%nat -> max <= x ->
  let n := Z.of_nat (length slow) + 2 in
  calibrate junk (min :: max :: zeros ++ moved :: slow ++ x :: more)
  = Done (Table (min :: slow ++ [x; max])
                (map (fun i => i * (255 ÷ (n + 1))) (indices n) ++ [255])
                (n + 1))
  /\ strictly_increasing (min :: slow ++ [x; max]) = false.
Proof.
  intros Hjunk Hz Hm Hmax Hslow Hlen Hx n. split.
  - cbn [calibrate]. rewrite (waitForMovement_skips _ _ _ Hz Hm). cbn [bind].
    rewrite write_done by lia. cbn [bind].
    destruct (sweep_records slow max x more Hslow Hx (store junk (Z.to_nat 0) min) 1 0)
      as (buf' & Hrun & Hlen' & Hfirst); try lia.
    { now rewrite length_store. }
    rewrite Hrun. cbn [bind].
    replace (1 + Z.of_nat (length slow) + 1) with n in * by (unfold n; lia).
    unfold indices at 1. rewrite readEach_firstn by lia. cbn [bind].
    destruct (n + 1 =? 0) eqn:E; [lia |].
    rewrite Hfirst.
    replace (firstn (Z.to_nat 1) (store junk (Z.to_nat 0) min)) with [min].
    + cbn [app]. rewrite <- app_assoc. reflexivity.
    + destruct junk as [| j0 junk']; [discriminate | reflexivity].
  - apply (strictly_increasing_tail (min :: slow)). exact Hx.
Qed.

Lemma calibrate_records_witness :
  calibrate (repeat 7 255) (3 :: 1000 :: [0; 0] ++ 5 :: [10; 400; 800] ++ 1001 :: [99])
  = Done (Table [3; 10; 400; 800; 1001; 1000] [0; 42; 84; 126; 168; 255] 6).
Proof.
  destruct (calibrate_records (repeat 7 255) 3 1000 [0; 0] 5 [10; 400; 800] 1001 [99])
    as [H _].
  - reflexivity.
  - repeat constructor.
  - discriminate.
  - reflexivity.
  - repeat constructor.
  - cbn. lia.
  - discriminate.
  - exact H.
Defined.
